(** * Delta-neutral concentrated-liquidity backtest: model and properties

    A shallow embedding of [backtest.py]: the liquidity mathematics
    ([get_quantities], [mint_position]), the fee attribution, the trigger
    and hedge logic and one iteration of the simulation loop ([step]),
    followed by the properties of the strategy that are checked against it.

    Numbers.  Ticks, offsets and the tick spacing are Python / numpy integers
    and are modelled by [Z]; [//] is floor division, which is [Z.div].
    Prices, liquidity, token amounts and balances are numpy [float64] values.
    They are modelled by [float64] below: a real number, or one of the IEEE
    special values [inf], [-inf], [nan].  Arithmetic on finite values is the
    exact arithmetic of [R] (no rounding, no overflow, one zero); the special
    values follow IEEE 754, so that a division by zero does what numpy does
    (it yields [nan] or an infinity and raises nothing).  What depends on
    rounding is stated on [Binary64.mint_position], the same function on the
    kernel's binary64 numbers.

    The table.  The columns of the data frame are read and written row by
    row; every write is taken to succeed and to store the value written.  *)

From Stdlib Require Import Reals ZArith List Bool Lra Lia.
From Corelib Require PrimFloat.
Import ListNotations.

Local Open Scope R_scope.

(** ** Floating-point values *)

Inductive float64 : Type :=
| Fin (r : R)
| PInf
| NInf
| NaN.

Definition Rltb (a b : R) : bool := if Rlt_dec a b then true else false.
Definition Rleb (a b : R) : bool := if Rle_dec a b then true else false.
Definition Reqb (a b : R) : bool := if Req_dec_T a b then true else false.

Module F.

Definition is_nan (a : float64) : bool :=
  match a with NaN => true | _ => false end.

Definition neg (a : float64) : float64 :=
  match a with
  | Fin r => Fin (- r)
  | PInf => NInf
  | NInf => PInf
  | NaN => NaN
  end.

Definition add (a b : float64) : float64 :=
  match a, b with
  | NaN, _ | _, NaN => NaN
  | Fin x, Fin y => Fin (x + y)
  | PInf, NInf | NInf, PInf => NaN
  | PInf, _ | _, PInf => PInf
  | NInf, _ | _, NInf => NInf
  end.

Definition sub (a b : float64) : float64 := add a (neg b).

(** An infinity scaled by the finite factor [r]: [nan] at zero, otherwise
    the infinity whose sign is the product of the signs. *)
Definition scale_inf (positive : bool) (r : R) : float64 :=
  if Reqb r 0 then NaN
  else if Bool.eqb positive (Rltb 0 r) then PInf else NInf.

Definition mul (a b : float64) : float64 :=
  match a, b with
  | NaN, _ | _, NaN => NaN
  | Fin x, Fin y => Fin (x * y)
  | Fin x, PInf | PInf, Fin x => scale_inf true x
  | Fin x, NInf | NInf, Fin x => scale_inf false x
  | PInf, PInf | NInf, NInf => PInf
  | PInf, NInf | NInf, PInf => NInf
  end.

Definition div (a b : float64) : float64 :=
  match a, b with
  | NaN, _ | _, NaN => NaN
  | Fin x, Fin y =>
      if Reqb y 0 then
        (if Reqb x 0 then NaN else if Rltb 0 x then PInf else NInf)
      else Fin (x / y)
  | Fin _, _ => Fin 0
  | PInf, Fin y => if Rleb 0 y then PInf else NInf
  | NInf, Fin y => if Rleb 0 y then NInf else PInf
  | _, _ => NaN
  end.

Definition sqrt (a : float64) : float64 :=
  match a with
  | Fin x => if Rltb x 0 then NaN else Fin (R_sqrt.sqrt x)
  | PInf => PInf
  | NInf | NaN => NaN
  end.

(** Comparisons: every comparison with [nan] is false. *)
Definition ltb (a b : float64) : bool :=
  match a, b with
  | NaN, _ | _, NaN => false
  | Fin x, Fin y => Rltb x y
  | Fin _, PInf | NInf, Fin _ | NInf, PInf => true
  | Fin _, NInf | PInf, _ | NInf, NInf => false
  end.

Definition leb (a b : float64) : bool :=
  match a, b with
  | NaN, _ | _, NaN => false
  | Fin x, Fin y => Rleb x y
  | Fin _, PInf | NInf, _ | PInf, PInf => true
  | Fin _, NInf | PInf, _ => false
  end.

Definition eqb (a b : float64) : bool :=
  match a, b with
  | Fin x, Fin y => Reqb x y
  | PInf, PInf | NInf, NInf => true
  | _, _ => false
  end.

(** A boolean used as a number: [True] is 1 and [False] is 0. *)
Definition of_bool (b : bool) : float64 := Fin (if b then 1 else 0).

(** [Series.sum()] of pandas: [nan] entries are skipped. *)
Definition sum (l : list float64) : float64 :=
  fold_left add (filter (fun a => negb (is_nan a)) l) (Fin 0).

End F.

Declare Scope float64_scope.
Delimit Scope float64_scope with fl.
Bind Scope float64_scope with float64.
Infix "+" := F.add : float64_scope.
Infix "-" := F.sub : float64_scope.
Infix "*" := F.mul : float64_scope.
Infix "/" := F.div : float64_scope.
Notation "- a" := (F.neg a) : float64_scope.
Infix "<?" := F.ltb : float64_scope.
Infix "<=?" := F.leb : float64_scope.
Infix "=?" := F.eqb : float64_scope.

(** ** Liquidity mathematics *)

(** [get_quantities]: the token amounts held by [liquidity] over the price
    range [lower_price, upper_price] when the pool trades at [pool_price]. *)
Definition get_quantities (liquidity lower_price upper_price pool_price : float64)
  : float64 * float64 :=
  let conditional_price :=
    (lower_price * F.of_bool (pool_price <=? lower_price)
     + pool_price * F.of_bool ((lower_price <? pool_price) && (pool_price <? upper_price))
     + upper_price * F.of_bool (upper_price <=? pool_price))%fl in
  let x := (liquidity * (Fin 1 / F.sqrt conditional_price - Fin 1 / F.sqrt upper_price))%fl in
  let y := (liquidity * (F.sqrt conditional_price - F.sqrt lower_price))%fl in
  (x, y).

(** The real value of [conditional_price] for finite prices: the pool price
    clamped into the range when [lower_price < upper_price]. *)
Definition conditional_price (lower_price upper_price pool_price : R) : R :=
  (if Rleb pool_price lower_price then lower_price else 0)
  + (if Rltb lower_price pool_price && Rltb pool_price upper_price then pool_price else 0)
  + (if Rleb upper_price pool_price then upper_price else 0).

(** [mint_position]: the liquidity minted from the balances [x], [y] over the
    range, with the amounts of each token that the position takes.  The
    result is [(position_liquidity, position_x, position_y)]. *)
Definition mint_position (x y lower_price upper_price pool_price : float64)
  : float64 * float64 * float64 :=
  if (lower_price <? pool_price)%fl && (pool_price <? upper_price)%fl then
    (* assume token x is in excess *)
    let position_y := y in
    let position_liquidity := (position_y / (F.sqrt pool_price - F.sqrt lower_price))%fl in
    let position_x :=
      (position_liquidity * (Fin 1 / F.sqrt pool_price - Fin 1 / F.sqrt upper_price))%fl in
    if (x <? position_x)%fl then
      (* token y is actually in excess *)
      let position_x := x in
      let position_liquidity :=
        (position_x / (Fin 1 / F.sqrt pool_price - Fin 1 / F.sqrt upper_price))%fl in
      let position_y := (position_liquidity * (F.sqrt pool_price - F.sqrt lower_price))%fl in
      (position_liquidity, position_x, position_y)
    else (position_liquidity, position_x, position_y)
  else if (pool_price <=? lower_price)%fl then
    let position_x := x in
    let position_liquidity :=
      (position_x / (Fin 1 / F.sqrt lower_price - Fin 1 / F.sqrt upper_price))%fl in
    (position_liquidity, position_x, Fin 0)
  else
    let position_y := y in
    let position_liquidity := (position_y / (F.sqrt upper_price - F.sqrt lower_price))%fl in
    (position_liquidity, Fin 0, position_y).

(** ** The mint in binary64 *)

(** [mint_position] once more, on IEEE binary64 numbers with rounding to
    nearest: each operation of the source is one primitive operation. *)
Module Binary64.
Import PrimFloat.
Local Open Scope float_scope.

Definition mint_position (x y lower_price upper_price pool_price : float)
  : float * float * float :=
  if (lower_price <? pool_price) && (pool_price <? upper_price) then
    (* assume token x is in excess *)
    let position_y := y in
    let position_liquidity := position_y / (sqrt pool_price - sqrt lower_price) in
    let position_x :=
      position_liquidity * (1 / sqrt pool_price - 1 / sqrt upper_price) in
    if x <? position_x then
      (* token y is actually in excess *)
      let position_x := x in
      let position_liquidity :=
        position_x / (1 / sqrt pool_price - 1 / sqrt upper_price) in
      let position_y := position_liquidity * (sqrt pool_price - sqrt lower_price) in
      (position_liquidity, position_x, position_y)
    else (position_liquidity, position_x, position_y)
  else if pool_price <=? lower_price then
    let position_x := x in
    let position_liquidity :=
      position_x / (1 / sqrt lower_price - 1 / sqrt upper_price) in
    (position_liquidity, position_x, 0)
  else
    let position_y := y in
    let position_liquidity := position_y / (sqrt upper_price - sqrt lower_price) in
    (position_liquidity, 0, position_y).


End Binary64.

(** ** Configuration and data *)

(** The module-level parameters of the script. *)
Record config : Type := {
  decimals_x : Z;
  decimals_y : Z;
  spacing : Z;
  start_value : R;
  delta_threshold : R;
  base_lower_bound_ticks : Z;
  base_upper_bound_ticks : Z;
  base_lower_trigger_ticks : Z;
  base_upper_trigger_ticks : Z;
  limit_bound_ticks : Z;
  limit_trigger_ticks : Z;
  lending_apy : R;
  borrowing_apy : R
}.

(** The values the script sets. *)
Definition default_config : config := {|
  decimals_x := 18;
  decimals_y := 6;
  spacing := 60;
  start_value := 1;
  delta_threshold := 1 / 10;
  base_lower_bound_ticks := 300;
  base_upper_bound_ticks := 300;
  base_lower_trigger_ticks := -30;
  base_upper_trigger_ticks := -30;
  limit_bound_ticks := 400;
  limit_trigger_ticks := 150;
  lending_apy := 5 / 100;
  borrowing_apy := 2 / 100
|}.

(** One row of [swaps.csv]. *)
Record swap : Type := {
  sw_timestamp : Z;
  sw_tick : Z;
  sw_liquidity : float64;
  sw_fees_x : float64;
  sw_fees_y : float64
}.

(** One five-minute bar of the resampled series. *)
Record bar : Type := {
  timestamp : Z;
  tick : Z
}.

(** The columns of row [i] that iteration [i] reads, and of row [i+1] that it
    writes: the state carried from one iteration to the next. *)
Record state : Type := {
  outside_x : float64;
  outside_y : float64;
  base_lower_bound_tick : Z;
  base_upper_bound_tick : Z;
  base_liquidity : float64;
  limit_lower_bound_tick : Z;
  limit_upper_bound_tick : Z;
  limit_liquidity : float64;
  lent : float64;
  borrowed : float64
}.

(** Every column starts at 0. *)
Definition initial_state : state := {|
  outside_x := Fin 0;
  outside_y := Fin 0;
  base_lower_bound_tick := 0;
  base_upper_bound_tick := 0;
  base_liquidity := Fin 0;
  limit_lower_bound_tick := 0;
  limit_upper_bound_tick := 0;
  limit_liquidity := Fin 0;
  lent := Fin 0;
  borrowed := Fin 0
|}.

(** The values of the [reason] column other than [None]. *)
Inductive reason_tag : Type :=
| limit_trigger
| base_trigger
| delta
| initialization.

(** The columns of row [i] that iteration [i] writes. *)
Record row_log : Type := {
  fees_x : float64;
  fees_y : float64;
  base_lower_trigger_tick : Z;
  base_upper_trigger_tick : Z;
  limit_lower_trigger_tick : Z;
  limit_upper_trigger_tick : Z;
  rebalance : bool;
  reason : option reason_tag
}.

(** Python exceptions that the loop body can raise. *)
Inductive exn : Type :=
| ZeroDivisionError.

Inductive outcome (A : Type) : Type :=
| Returned (a : A)
| Raised (e : exn).
Arguments Returned {A} a.
Arguments Raised {A} e.

(** ** Price of a tick *)

(** [1.0001**tick/10**(decimals_y-decimals_x)]. *)
Definition price_of_tick (cfg : config) (t : Z) : float64 :=
  (Fin (powerRZ (10001 / 10000) t) / Fin (powerRZ 10 (decimals_y cfg - decimals_x cfg)))%fl.

(** The real value of [price_of_tick]. *)
Definition tick_price (cfg : config) (t : Z) : R :=
  powerRZ (10001 / 10000) t / powerRZ 10 (decimals_y cfg - decimals_x cfg).

Local Open Scope Z_scope.

(** [887272//spacing*spacing] and [-887272//spacing*spacing+spacing]. *)
Definition max_aligned_tick (cfg : config) : Z := 887272 / spacing cfg * spacing cfg.
Definition min_aligned_tick (cfg : config) : Z := -887272 / spacing cfg * spacing cfg + spacing cfg.

(** ** Fee attribution *)

Definition in_range (lower upper t : Z) : bool := (lower <=? t) && (t <? upper).

Definition swaps_period (t_i t_next : Z) (swaps : list swap) : list swap :=
  filter (fun s => (t_i <=? sw_timestamp s) && (sw_timestamp s <? t_next)) swaps.

Definition gamma_liquidity (st : state) (s : swap) : float64 :=
  (base_liquidity st
     * F.of_bool (in_range (base_lower_bound_tick st) (base_upper_bound_tick st) (sw_tick s))
   + limit_liquidity st
     * F.of_bool (in_range (limit_lower_bound_tick st) (limit_upper_bound_tick st) (sw_tick s)))%fl.

Definition gamma_share (st : state) (s : swap) : float64 :=
  (gamma_liquidity st s / (gamma_liquidity st s + sw_liquidity s))%fl.

(** The pair [(fees_x, fees_y)] of an iteration. *)
Definition period_fees (st : state) (t_i t_next : Z) (swaps : list swap)
  : float64 * float64 :=
  let period := swaps_period t_i t_next swaps in
  (F.sum (map (fun s => (gamma_share st s * sw_fees_x s)%fl) period),
   F.sum (map (fun s => (gamma_share st s * sw_fees_y s)%fl) period)).

(** ** Triggers *)

(** [not lower_trigger_tick<=pool_tick<upper_trigger_tick]. *)
Definition triggered (lower_trigger_tick upper_trigger_tick pool_tick : Z) : bool :=
  negb ((lower_trigger_tick <=? pool_tick) && (pool_tick <? upper_trigger_tick)).

Definition base_lower_trigger (cfg : config) (st : state) : Z :=
  base_lower_bound_tick st - base_lower_trigger_ticks cfg.
Definition base_upper_trigger (cfg : config) (st : state) : Z :=
  base_upper_bound_tick st + base_upper_trigger_ticks cfg.
Definition base_triggered (cfg : config) (st : state) (pool_tick : Z) : bool :=
  triggered (base_lower_trigger cfg st) (base_upper_trigger cfg st) pool_tick.

Definition limit_lower_trigger (cfg : config) (st : state) : Z :=
  limit_lower_bound_tick st - limit_trigger_ticks cfg.
Definition limit_upper_trigger (cfg : config) (st : state) : Z :=
  limit_upper_bound_tick st + limit_trigger_ticks cfg.
Definition limit_triggered (cfg : config) (st : state) (pool_tick : Z) : bool :=
  triggered (limit_lower_trigger cfg st) (limit_upper_trigger cfg st) pool_tick.

(** ** Hedging *)

(** The tokens of the two positions of [st] at the pool price. *)
Definition base_tokens (cfg : config) (st : state) (pool_tick : Z) : float64 * float64 :=
  get_quantities (base_liquidity st)
    (price_of_tick cfg (base_lower_bound_tick st))
    (price_of_tick cfg (base_upper_bound_tick st))
    (price_of_tick cfg pool_tick).

Definition limit_tokens (cfg : config) (st : state) (pool_tick : Z) : float64 * float64 :=
  get_quantities (limit_liquidity st)
    (price_of_tick cfg (limit_lower_bound_tick st))
    (price_of_tick cfg (limit_upper_bound_tick st))
    (price_of_tick cfg pool_tick).

(** [delta=-borrowed+base_x+limit_x+outside_x], where [outside_x] already
    holds the fees of the iteration. *)
Definition hedge_delta (cfg : config) (st : state) (pool_tick : Z) (fees_x : float64)
  : float64 :=
  (- borrowed st + fst (base_tokens cfg st pool_tick) + fst (limit_tokens cfg st pool_tick)
   + (outside_x st + fees_x))%fl.

Definition current_position (cfg : config) (st : state) : Z :=
  1 * Z.b2z (base_upper_bound_tick st =? max_aligned_tick cfg)
  - 1 * Z.b2z (base_lower_bound_tick st =? min_aligned_tick cfg).

(** [1*(delta/borrowed<-delta_threshold)-1*(delta_threshold<delta/borrowed)]. *)
Definition target_position (cfg : config) (delta borrowed : float64) : Z :=
  1 * Z.b2z (delta / borrowed <? Fin (- delta_threshold cfg))%fl
  - 1 * Z.b2z (Fin (delta_threshold cfg) <? delta / borrowed)%fl.

(** The compounding factor of one bar, [(1+apy)**(1/(365*24*12))].  Python's
    float power of a positive base is [exp (e * ln b)]; the base is positive
    for every rate above -100%. *)
Definition compound (apy : R) : float64 :=
  Fin (Rpower (1 + apy) (1 / (365 * 24 * 12))).

(** ** The rebalance decision *)

(** The three conditions are tested in turn and each overwrites the tag of
    the ones before it; the first iteration then overwrites them all. *)
Definition check_rebalance (i : nat) (limit_triggered base_triggered : bool)
    (current_position target_position : Z) : bool * option reason_tag :=
  let r0 := (false, None) in
  let r1 := if limit_triggered then (true, Some limit_trigger) else r0 in
  let r2 := if base_triggered then (true, Some base_trigger) else r1 in
  let r3 := if negb (current_position =? target_position) then (true, Some delta) else r2 in
  if Nat.eqb i 0 then (true, Some initialization) else r3.

(** [reason in ['base_trigger','delta','initialization']]. *)
Definition resets_base (reason : option reason_tag) : bool :=
  match reason with
  | Some base_trigger | Some delta | Some initialization => true
  | Some limit_trigger | None => false
  end.

(** ** New bounds *)

Definition new_base_bounds (cfg : config) (pool_tick target_position : Z) : Z * Z :=
  let s := spacing cfg in
  (min_aligned_tick cfg * Z.b2z (target_position =? -1)
   + (pool_tick - base_lower_bound_ticks cfg) / s * s
     * Z.b2z ((target_position =? 0) || (target_position =? 1)),
   (pool_tick + base_upper_bound_ticks cfg) / s * s
     * Z.b2z ((target_position =? -1) || (target_position =? 0))
   + max_aligned_tick cfg * Z.b2z (target_position =? 1)).

Definition new_limit_bounds (cfg : config) (pool_tick target_position : Z)
    (outside_y : float64) : Z * Z :=
  let s := spacing cfg in
  (* set new limit bounds *)
  let lower :=
    min_aligned_tick cfg * Z.b2z (target_position =? -1)
    + (pool_tick - limit_bound_ticks cfg) / s * s
      * Z.b2z ((target_position =? 0) || (target_position =? 1)) in
  let upper :=
    (pool_tick + limit_bound_ticks cfg) / s * s
      * Z.b2z ((target_position =? -1) || (target_position =? 0))
    + max_aligned_tick cfg * Z.b2z (target_position =? 1) in
  (* adjust limit bounds to pool tick *)
  let lower := Z.min lower (pool_tick / s * s - s) in
  let upper := Z.max upper (pool_tick / s * s + 2 * s) in
  (* adjust limit bounds to remaining token *)
  if (outside_y =? Fin 0)%fl then (pool_tick / s * s + s, upper)
  else (lower, pool_tick / s * s).

Local Close Scope Z_scope.

(** ** One iteration of the loop *)

(** The balances after the [#initialization] block: the first iteration
    replaces the hedge and the outside reserve, every other one keeps the
    balances of the row with the fees of the period added outside. *)
Record funding : Type := {
  f_lent : float64;
  f_borrowed : float64;
  f_outside_x : float64;
  f_outside_y : float64
}.

Definition fund (cfg : config) (i : nat) (pool_tick : Z) (st : state)
    (fees : float64 * float64) : funding :=
  if Nat.eqb i 0 then
    let lent := start_value cfg * 2 / 3 in
    let borrowed := (Fin (lent / 2) / price_of_tick cfg pool_tick)%fl in
    {| f_lent := Fin lent;
       f_borrowed := borrowed;
       f_outside_x := borrowed;
       f_outside_y := Fin (start_value cfg - lent) |}
  else
    {| f_lent := lent st;
       f_borrowed := borrowed st;
       f_outside_x := (outside_x st + fst fees)%fl;
       f_outside_y := (outside_y st + snd fees)%fl |}.

(** The body of [if rebalance:].  Both positions are burnt into the outside
    reserve, the base position is minted again (over new bounds when the
    reason asks for it, over the bounds of [st] otherwise), and the limit
    position is minted from what is left.  The hedge balances are those of
    [f]. *)
Definition rebalance_positions (cfg : config) (pool_tick target_position : Z)
    (reason : option reason_tag) (st : state) (f : funding) : state :=
  let pool_price := price_of_tick cfg pool_tick in
  let '(base_x, base_y) := base_tokens cfg st pool_tick in
  let '(limit_x, limit_y) := limit_tokens cfg st pool_tick in
  (* burn all *)
  let outside_x := (f_outside_x f + (base_x + limit_x))%fl in
  let outside_y := (f_outside_y f + (base_y + limit_y))%fl in
  (* set new base bounds *)
  let '(base_lower, base_upper) :=
    if resets_base reason then new_base_bounds cfg pool_tick target_position
    else (base_lower_bound_tick st, base_upper_bound_tick st) in
  (* mint base *)
  let '(base_liquidity, base_x, base_y) :=
    mint_position outside_x outside_y
      (price_of_tick cfg base_lower) (price_of_tick cfg base_upper) pool_price in
  let outside_x := (outside_x - base_x)%fl in
  let outside_y := (outside_y - base_y)%fl in
  (* set new limit bounds *)
  let '(limit_lower, limit_upper) :=
    new_limit_bounds cfg pool_tick target_position outside_y in
  (* mint limit *)
  let '(limit_liquidity, limit_x, limit_y) :=
    mint_position outside_x outside_y
      (price_of_tick cfg limit_lower) (price_of_tick cfg limit_upper) pool_price in
  {| outside_x := (outside_x - limit_x)%fl;
     outside_y := (outside_y - limit_y)%fl;
     base_lower_bound_tick := base_lower;
     base_upper_bound_tick := base_upper;
     base_liquidity := base_liquidity;
     limit_lower_bound_tick := limit_lower;
     limit_upper_bound_tick := limit_upper;
     limit_liquidity := limit_liquidity;
     lent := f_lent f;
     borrowed := f_borrowed f |}.

(** Without a rebalance the positions of [st] are kept. *)
Definition keep_positions (st : state) (f : funding) : state :=
  {| outside_x := f_outside_x f;
     outside_y := f_outside_y f;
     base_lower_bound_tick := base_lower_bound_tick st;
     base_upper_bound_tick := base_upper_bound_tick st;
     base_liquidity := base_liquidity st;
     limit_lower_bound_tick := limit_lower_bound_tick st;
     limit_upper_bound_tick := limit_upper_bound_tick st;
     limit_liquidity := limit_liquidity st;
     lent := f_lent f;
     borrowed := f_borrowed f |}.

(** The target position of the iteration: the ratio uses the [borrowed] of
    the row, read before the initialization block runs. *)
Definition step_target (cfg : config) (pool_tick : Z) (st : state) (fees_x : float64) : Z :=
  target_position cfg (hedge_delta cfg st pool_tick fees_x) (borrowed st).

(** The pair [(rebalance, reason)] of the iteration. *)
Definition step_decision (cfg : config) (i : nat) (pool_tick : Z) (st : state)
    (fees_x : float64) : bool * option reason_tag :=
  check_rebalance i (limit_triggered cfg st pool_tick) (base_triggered cfg st pool_tick)
    (current_position cfg st) (step_target cfg pool_tick st fees_x).

(** Last two lines of the body: both hedge balances compound. *)
Definition accrue (cfg : config) (st : state) : state :=
  {| outside_x := outside_x st;
     outside_y := outside_y st;
     base_lower_bound_tick := base_lower_bound_tick st;
     base_upper_bound_tick := base_upper_bound_tick st;
     base_liquidity := base_liquidity st;
     limit_lower_bound_tick := limit_lower_bound_tick st;
     limit_upper_bound_tick := limit_upper_bound_tick st;
     limit_liquidity := limit_liquidity st;
     lent := (lent st * compound (lending_apy cfg))%fl;
     borrowed := (borrowed st * compound (borrowing_apy cfg))%fl |}.

(** The state before the last two lines: the balances and positions that the
    iteration leaves, the hedge not yet compounded. *)
Definition settle (cfg : config) (i : nat) (t_i t_next pool_tick : Z) (st : state)
    (swaps : list swap) : state :=
  let fees := period_fees st t_i t_next swaps in
  let f := fund cfg i pool_tick st fees in
  let '(rebalance, reason) := step_decision cfg i pool_tick st (fst fees) in
  if rebalance
  then rebalance_positions cfg pool_tick (step_target cfg pool_tick st (fst fees)) reason st f
  else keep_positions st f.

Definition step_body (cfg : config) (i : nat) (t_i t_next pool_tick : Z) (st : state)
    (swaps : list swap) : row_log * state :=
  let fees := period_fees st t_i t_next swaps in
  let decision := step_decision cfg i pool_tick st (fst fees) in
  ({| fees_x := fst fees;
      fees_y := snd fees;
      base_lower_trigger_tick := base_lower_trigger cfg st;
      base_upper_trigger_tick := base_upper_trigger cfg st;
      limit_lower_trigger_tick := limit_lower_trigger cfg st;
      limit_upper_trigger_tick := limit_upper_trigger cfg st;
      rebalance := fst decision;
      reason := snd decision |},
   accrue cfg (settle cfg i t_i t_next pool_tick st swaps)).

(** Iteration [i] of the loop, from the row [st] and the bar times.  The only
    operation on Python integers that can raise is [887272//spacing], the
    first use of the spacing; everything else is numpy arithmetic. *)
Definition step (cfg : config) (i : nat) (t_i t_next pool_tick : Z) (st : state)
    (swaps : list swap) : outcome (row_log * state) :=
  if (spacing cfg =? 0)%Z then Raised ZeroDivisionError
  else Returned (step_body cfg i t_i t_next pool_tick st swaps).

(** ** The loop *)

(** [for i in range(len(result)-1)]: one iteration for every bar that has a
    successor.  The run stops at the first exception. *)
Fixpoint backtest_loop (cfg : config) (i : nat) (bars : list bar) (st : state)
    (swaps : list swap) : outcome (list (row_log * state)) :=
  match bars with
  | b :: ((b' :: _) as rest) =>
      match step cfg i (timestamp b) (timestamp b') (tick b) st swaps with
      | Raised e => Raised e
      | Returned (log, st') =>
          match backtest_loop cfg (S i) rest st' swaps with
          | Raised e => Raised e
          | Returned rows => Returned ((log, st') :: rows)
          end
      end
  | _ => Returned []
  end.

Definition backtest (cfg : config) (bars : list bar) (swaps : list swap)
  : outcome (list (row_log * state)) :=
  backtest_loop cfg 0 bars initial_state swaps.

(** The real amounts that a finite liquidity [L] holds between two ticks when
    the pool is at [pool_tick]. *)
Definition tokens_of (cfg : config) (L : R) (lower upper pool_tick : Z) : R * R :=
  let c := conditional_price (tick_price cfg lower) (tick_price cfg upper)
             (tick_price cfg pool_tick) in
  (L * (1 / sqrt c - 1 / sqrt (tick_price cfg upper)),
   L * (sqrt c - sqrt (tick_price cfg lower))).

(** ** Total holdings *)

(** The tokens of both positions of [st] at the pool price, plus an outside
    balance: [base_x + limit_x + outside_x], and the same for token y. *)
Definition total_x (cfg : config) (pool_tick : Z) (st : state) (outside : float64)
  : float64 :=
  (fst (base_tokens cfg st pool_tick) + fst (limit_tokens cfg st pool_tick) + outside)%fl.

Definition total_y (cfg : config) (pool_tick : Z) (st : state) (outside : float64)
  : float64 :=
  (snd (base_tokens cfg st pool_tick) + snd (limit_tokens cfg st pool_tick) + outside)%fl.

(** ** Well-formed inputs and rows *)

(** The real number that a finite value holds. *)
Definition real_of (a : float64) : R :=
  match a with Fin r => r | _ => 0 end.

(** A finite value that is not negative. *)
Definition nonneg (a : float64) : Prop := exists r : R, a = Fin r /\ 0 <= r.

(** A swap of a pool with some liquidity, with fees that are not negative. *)
Definition good_swap (s : swap) : Prop :=
  (exists q : R, sw_liquidity s = Fin q /\ 0 < q)
  /\ nonneg (sw_fees_x s) /\ nonneg (sw_fees_y s).

(** The fees that the whole pool collected over a period. *)
Definition pool_fees_x (t_i t_next : Z) (swaps : list swap) : R :=
  fold_right (fun s acc => real_of (sw_fees_x s) + acc) 0 (swaps_period t_i t_next swaps).

Definition pool_fees_y (t_i t_next : Z) (swaps : list swap) : R :=
  fold_right (fun s acc => real_of (sw_fees_y s) + acc) 0 (swaps_period t_i t_next swaps).

(** Parameters under which every reset gives a proper base range: a positive
    spacing, a lower offset of at least one spacing and an upper offset of
    at least two; a start value that is not negative and rates above -100%. *)
Definition good_config (cfg : config) : Prop :=
  (0 < spacing cfg)%Z
  /\ (spacing cfg <= base_lower_bound_ticks cfg)%Z
  /\ (2 * spacing cfg <= base_upper_bound_ticks cfg)%Z
  /\ 0 <= start_value cfg
  /\ -1 < lending_apy cfg
  /\ -1 < borrowing_apy cfg.

(** A pool tick within the protocol's limits. *)
Definition tick_in_limits (t : Z) : Prop := (-887272 <= t <= 887272)%Z.

(** A row whose two ranges are proper and aligned to the spacing. *)
Definition ranges_proper (cfg : config) (st : state) : Prop :=
  (base_lower_bound_tick st < base_upper_bound_tick st)%Z
  /\ (limit_lower_bound_tick st < limit_upper_bound_tick st)%Z
  /\ (spacing cfg | base_lower_bound_tick st)%Z
  /\ (spacing cfg | base_upper_bound_tick st)%Z
  /\ (spacing cfg | limit_lower_bound_tick st)%Z
  /\ (spacing cfg | limit_upper_bound_tick st)%Z.

(** ** Values of a row *)

(** The columns computed after the loop, for one row: the state [st] of the
    row, its pool tick and the fees recorded in it.
    [liquidity_value = base_value + limit_value + outside_value + fees_value]
    and [total_value = liquidity_value + lent - borrowed*pool_price]. *)
Definition liquidity_value (cfg : config) (pool_tick : Z) (st : state)
    (fees : float64 * float64) : float64 :=
  let pool_price := price_of_tick cfg pool_tick in
  let '(base_x, base_y) := base_tokens cfg st pool_tick in
  let '(limit_x, limit_y) := limit_tokens cfg st pool_tick in
  let base_value := (base_x * pool_price + base_y)%fl in
  let limit_value := (limit_x * pool_price + limit_y)%fl in
  let outside_value := (outside_x st * pool_price + outside_y st)%fl in
  let fees_value := (fst fees * pool_price + snd fees)%fl in
  (base_value + limit_value + outside_value + fees_value)%fl.

Definition total_value (cfg : config) (pool_tick : Z) (st : state)
    (fees : float64 * float64) : float64 :=
  (liquidity_value cfg pool_tick st fees + lent st
   - borrowed st * price_of_tick cfg pool_tick)%fl.


(** ** Sample rows *)

(** A row with empty positions, the base range [-300, 300), a unit of debt
    and a unit of token y outside; the limit range and the amount of token x
    outside are left open. *)
Definition sample_row (limit_lower limit_upper : Z) (x : R) : state := {|
  outside_x := Fin x;
  outside_y := Fin 1;
  base_lower_bound_tick := -300;
  base_upper_bound_tick := 300;
  base_liquidity := Fin 0;
  limit_lower_bound_tick := limit_lower;
  limit_upper_bound_tick := limit_upper;
  limit_liquidity := Fin 0;
  lent := Fin (2 / 3);
  borrowed := Fin 1
|}.

(** Hedged, the pool tick 0 inside both trigger bands. *)
Definition row_quiet : state := sample_row (-60) 0 1.

(** Hedged, the pool tick 0 below the trigger band of the limit range. *)
Definition row_limit_out : state := sample_row 600 1200 1.

(** No token x against a unit of debt: the exposure is -1. *)
Definition row_short : state := sample_row (-60) 0 0.

(** One iteration on a sample row: the script's parameters, pool tick 0, a
    bar from time 0 to time 300 and no swap in it. *)
Definition sample_step (i : nat) (st : state) : row_log * state :=
  step_body default_config i 0 300 0 st [].

(** A row with liquidity in both positions, and a swap inside both ranges. *)
Definition row_active : state := {|
  outside_x := Fin 0;
  outside_y := Fin 0;
  base_lower_bound_tick := -300;
  base_upper_bound_tick := 300;
  base_liquidity := Fin 1;
  limit_lower_bound_tick := -60;
  limit_upper_bound_tick := 0;
  limit_liquidity := Fin 2;
  lent := Fin (2 / 3);
  borrowed := Fin 1
|}.

Definition sample_swap : swap := {|
  sw_timestamp := 10;
  sw_tick := -30;
  sw_liquidity := Fin 3;
  sw_fees_x := Fin 1;
  sw_fees_y := Fin 2
|}.

(** Three bars at ticks 0, 0 and 60. *)
Definition sample_bars : list bar :=
  [ {| timestamp := 0; tick := 0 |};
    {| timestamp := 300; tick := 0 |};
    {| timestamp := 600; tick := 60 |} ].

(** The two rows that the loop writes over [sample_bars] without swaps. *)
Definition sample_rows : list (row_log * state) :=
  [ sample_step 0 initial_state;
    step_body default_config 1 300 600 0 (snd (sample_step 0 initial_state)) [] ].

(** * Properties *)

(** ** Boolean comparisons of reals *)

Lemma Rltb_true (a b : R) : a < b -> Rltb a b = true.
Proof. intros H. unfold Rltb. destruct (Rlt_dec a b); [reflexivity | contradiction]. Qed.

Lemma Rltb_false (a b : R) : b <= a -> Rltb a b = false.
Proof. intros H. unfold Rltb. destruct (Rlt_dec a b); [lra | reflexivity]. Qed.

Lemma Rleb_true (a b : R) : a <= b -> Rleb a b = true.
Proof. intros H. unfold Rleb. destruct (Rle_dec a b); [reflexivity | contradiction]. Qed.

Lemma Rleb_false (a b : R) : b < a -> Rleb a b = false.
Proof. intros H. unfold Rleb. destruct (Rle_dec a b); [lra | reflexivity]. Qed.

Lemma Reqb_true (a b : R) : a = b -> Reqb a b = true.
Proof. intros H. unfold Reqb. destruct (Req_dec_T a b); [reflexivity | contradiction]. Qed.

Lemma Reqb_false (a b : R) : a <> b -> Reqb a b = false.
Proof. intros H. unfold Reqb. destruct (Req_dec_T a b); [contradiction | reflexivity]. Qed.

Lemma Rltb_spec (a b : R) : reflect (a < b) (Rltb a b).
Proof. unfold Rltb. destruct (Rlt_dec a b); constructor; assumption. Qed.

Lemma Rleb_spec (a b : R) : reflect (a <= b) (Rleb a b).
Proof. unfold Rleb. destruct (Rle_dec a b); constructor; assumption. Qed.

Lemma Reqb_spec (a b : R) : reflect (a = b) (Reqb a b).
Proof. unfold Reqb. destruct (Req_dec_T a b); constructor; assumption. Qed.

(** ** Arithmetic of finite values *)

Lemma add_Fin (a b : R) : (Fin a + Fin b)%fl = Fin (a + b).
Proof. reflexivity. Qed.

Lemma sub_Fin (a b : R) : (Fin a - Fin b)%fl = Fin (a - b).
Proof. reflexivity. Qed.

Lemma mul_Fin (a b : R) : (Fin a * Fin b)%fl = Fin (a * b).
Proof. reflexivity. Qed.

Lemma neg_Fin (a : R) : (- Fin a)%fl = Fin (- a).
Proof. reflexivity. Qed.

Lemma div_Fin (a b : R) : b <> 0 -> (Fin a / Fin b)%fl = Fin (a / b).
Proof. intros H. unfold F.div. rewrite (Reqb_false _ _ H). reflexivity. Qed.

Lemma sqrt_Fin (a : R) : 0 <= a -> F.sqrt (Fin a) = Fin (sqrt a).
Proof. intros H. unfold F.sqrt. rewrite (Rltb_false _ _ H). reflexivity. Qed.

Lemma mul_of_bool (a : R) (b : bool) :
  (Fin a * F.of_bool b)%fl = Fin (if b then a else 0).
Proof. destruct b; unfold F.of_bool; rewrite mul_Fin; f_equal; ring. Qed.

(** ** Prices *)

Lemma scale_pos (cfg : config) : 0 < powerRZ 10 (decimals_y cfg - decimals_x cfg).
Proof. apply powerRZ_lt. lra. Qed.

Lemma price_of_tick_Fin (cfg : config) (t : Z) :
  price_of_tick cfg t = Fin (tick_price cfg t).
Proof.
  unfold price_of_tick, tick_price. apply div_Fin.
  pose proof (scale_pos cfg). lra.
Qed.

Lemma tick_price_pos (cfg : config) (t : Z) : 0 < tick_price cfg t.
Proof.
  unfold tick_price. apply Rdiv_lt_0_compat; [apply powerRZ_lt; lra | apply scale_pos].
Qed.

Lemma powerRZ_base_lt (a b : Z) :
  (a < b)%Z -> powerRZ (10001 / 10000) a < powerRZ (10001 / 10000) b.
Proof.
  intros H.
  replace b with (a + (b - a))%Z by lia.
  rewrite powerRZ_add by lra.
  assert (Ha : 0 < powerRZ (10001 / 10000) a) by (apply powerRZ_lt; lra).
  assert (Hd : 1 < powerRZ (10001 / 10000) (b - a)).
  { destruct (b - a)%Z as [|q|q] eqn:E; try lia.
    simpl. apply Rlt_pow_R1; [lra | lia]. }
  nra.
Qed.

Lemma tick_price_lt (cfg : config) (a b : Z) :
  (a < b)%Z -> tick_price cfg a < tick_price cfg b.
Proof.
  intros H. unfold tick_price.
  apply Rmult_lt_compat_r; [apply Rinv_0_lt_compat, scale_pos | apply powerRZ_base_lt, H].
Qed.

Lemma tick_price_le (cfg : config) (a b : Z) :
  (a <= b)%Z -> tick_price cfg a <= tick_price cfg b.
Proof.
  intros H. destruct (Z.eq_dec a b) as [->|Hne]; [lra|].
  apply Rlt_le, tick_price_lt. lia.
Qed.

(** ** [get_quantities] on finite values *)

Lemma conditional_price_pos (l u p : R) :
  0 < l -> 0 < u -> 0 < p -> 0 < conditional_price l u p.
Proof.
  intros Hl Hu Hp. unfold conditional_price.
  destruct (Rleb_spec p l), (Rltb_spec l p), (Rltb_spec p u), (Rleb_spec u p);
    simpl; lra.
Qed.

Lemma conditional_price_clamp (l u p : R) :
  l < u ->
  conditional_price l u p = if Rleb p l then l else if Rleb u p then u else p.
Proof.
  intros Hlu. unfold conditional_price.
  destruct (Rleb_spec p l), (Rltb_spec l p), (Rltb_spec p u), (Rleb_spec u p);
    simpl; lra.
Qed.

Lemma get_quantities_Fin (L l u p : R) :
  0 < l -> 0 < u -> 0 < p ->
  get_quantities (Fin L) (Fin l) (Fin u) (Fin p)
  = (Fin (L * (1 / sqrt (conditional_price l u p) - 1 / sqrt u)),
     Fin (L * (sqrt (conditional_price l u p) - sqrt l))).
Proof.
  intros Hl Hu Hp.
  pose proof (conditional_price_pos l u p Hl Hu Hp) as Hc.
  pose proof (sqrt_lt_R0 _ Hc) as Hsc.
  pose proof (sqrt_lt_R0 _ Hu) as Hsu.
  unfold get_quantities.
  cbn [F.leb F.ltb].
  rewrite !mul_of_bool, !add_Fin.
  fold (conditional_price l u p).
  rewrite !sqrt_Fin by lra.
  rewrite !div_Fin by lra.
  rewrite !sub_Fin, !mul_Fin. reflexivity.
Qed.

(** ** [mint_position] on finite values over a proper range *)

Lemma sqrt_order (a b : R) : 0 < a -> a < b -> 0 < sqrt a < sqrt b.
Proof.
  intros Ha Hab. split; [apply sqrt_lt_R0, Ha | apply sqrt_lt_1; lra].
Qed.

Lemma inv_sqrt_gap (a b : R) : 0 < a -> a < b -> 0 < 1 / sqrt a - 1 / sqrt b.
Proof.
  intros Ha Hab. destruct (sqrt_order a b Ha Hab) as [H0 H1].
  assert (/ sqrt b < / sqrt a) by (apply Rinv_lt_contravar; nra).
  lra.
Qed.

(** What [mint_position] returns on real balances over a range
    [0 < l < u]: three finite values [(L, ux, uy)] such that [L] over the
    range holds exactly [ux] and [uy] at the pool price. *)
Lemma mint_position_Fin (x y l u p : R) :
  0 < l -> l < u -> 0 < p ->
  exists L ux uy : R,
    mint_position (Fin x) (Fin y) (Fin l) (Fin u) (Fin p) = (Fin L, Fin ux, Fin uy)
    /\ L * (1 / sqrt (conditional_price l u p) - 1 / sqrt u) = ux
    /\ L * (sqrt (conditional_price l u p) - sqrt l) = uy
    /\ (0 <= x -> 0 <= y -> ux <= x /\ uy <= y)
    /\ (p <= l -> uy = 0)
    /\ (u <= p -> ux = 0).
Proof.
  intros Hl Hlu Hp.
  assert (Hu : 0 < u) by lra.
  destruct (sqrt_order l u Hl Hlu) as [Hsl Hslu].
  pose proof (inv_sqrt_gap l u Hl Hlu) as Hglu.
  rewrite (conditional_price_clamp l u p Hlu).
  unfold mint_position. cbn [F.leb F.ltb].
  destruct (Rltb_spec l p) as [Hlp | Hlp]; cbn [andb].
  - destruct (Rltb_spec p u) as [Hpu | Hpu].
    + (* inside the range *)
      destruct (sqrt_order l p Hl Hlp) as [_ Hslp].
      destruct (sqrt_order p u Hp Hpu) as [Hsp Hspu].
      pose proof (inv_sqrt_gap p u Hp Hpu) as Hgpu.
      rewrite (Rleb_false p l), (Rleb_false u p) by lra.
      rewrite !sqrt_Fin by lra.
      rewrite !sub_Fin.
      rewrite !(div_Fin 1) by lra.
      rewrite !sub_Fin.
      rewrite !div_Fin by lra.
      rewrite !mul_Fin. cbn [F.ltb].
      destruct (Rltb_spec x (y / (sqrt p - sqrt l) * (1 / sqrt p - 1 / sqrt u)))
        as [Hx | Hx].
      * eexists _, _, _. split; [reflexivity|].
        repeat split; intros; try lra.
        -- field. split; lra.
        -- apply Rlt_le.
           apply Rmult_lt_reg_r with (r := / (sqrt p - sqrt l) * (1 / sqrt p - 1 / sqrt u)).
           ++ apply Rmult_lt_0_compat; [apply Rinv_0_lt_compat|]; lra.
           ++ replace (x / (1 / sqrt p - 1 / sqrt u) * (sqrt p - sqrt l)
                       * (/ (sqrt p - sqrt l) * (1 / sqrt p - 1 / sqrt u)))
                with x by (field; repeat split; lra).
              replace (y * (/ (sqrt p - sqrt l) * (1 / sqrt p - 1 / sqrt u)))
                with (y / (sqrt p - sqrt l) * (1 / sqrt p - 1 / sqrt u))
                by (field; repeat split; lra).
              exact Hx.
      * eexists _, _, _. split; [reflexivity|].
        repeat split; intros; try lra.
        field. lra.
    + (* at or above the upper price *)
      assert (Hup : u <= p) by lra.
      rewrite (Rleb_false p l), (Rleb_true u p) by lra.
      rewrite !sqrt_Fin by lra.
      rewrite !sub_Fin.
      rewrite !div_Fin by lra.
      eexists _, _, _. split; [reflexivity|].
      repeat split; intros; try lra.
      field. lra.
  - (* at or below the lower price *)
    assert (Hpl : p <= l) by lra.
    rewrite (Rleb_true p l) by lra.
    rewrite !sqrt_Fin by lra.
    rewrite !(div_Fin 1) by lra.
    rewrite !sub_Fin.
    rewrite !div_Fin by lra.
    eexists _, _, _. split; [reflexivity|].
    repeat split; intros; try lra.
    field. repeat split; lra.
Qed.

(** ** Round trip and bounds of a mint *)

(** C2.  For balances [x, y >= 0], a range [0 < lower_price < upper_price]
    and a positive pool price, the liquidity that [mint_position] returns,
    given back to [get_quantities] over the same range and pool price, yields
    exactly the amounts [(position_x, position_y)] that the mint reported as
    used. *)
Theorem mint_quantities_roundtrip (x y lower_price upper_price pool_price : R) :
  0 <= x -> 0 <= y ->
  0 < lower_price -> lower_price < upper_price -> 0 < pool_price ->
  forall liquidity used_x used_y,
    mint_position (Fin x) (Fin y) (Fin lower_price) (Fin upper_price) (Fin pool_price)
    = (liquidity, used_x, used_y) ->
    get_quantities liquidity (Fin lower_price) (Fin upper_price) (Fin pool_price)
    = (used_x, used_y).
Proof.
  intros _ _ Hl Hlu Hp liquidity used_x used_y Hmint.
  destruct (mint_position_Fin x y _ _ _ Hl Hlu Hp)
    as (L & ux & uy & Heq & Hx & Hy & _).
  rewrite Heq in Hmint. injection Hmint as <- <- <-.
  rewrite get_quantities_Fin by lra.
  rewrite Hx, Hy. reflexivity.
Qed.

Lemma mint_quantities_roundtrip_witness :
  get_quantities
    (fst (fst (mint_position (Fin 1) (Fin 2) (Fin 1) (Fin 4) (Fin 2))))
    (Fin 1) (Fin 4) (Fin 2)
  = (snd (fst (mint_position (Fin 1) (Fin 2) (Fin 1) (Fin 4) (Fin 2))),
     snd (mint_position (Fin 1) (Fin 2) (Fin 1) (Fin 4) (Fin 2))).
Proof.
  apply (mint_quantities_roundtrip 1 2 1 4 2); try lra.
  destruct (mint_position (Fin 1) (Fin 2) (Fin 1) (Fin 4) (Fin 2)) as [[L ux] uy].
  reflexivity.
Defined.



(** ** Triggers *)




(** ** The iteration returns unless the spacing is zero *)

Lemma step_returns (cfg : config) (i : nat) (t_i t_next pool_tick : Z) (st : state)
    (swaps : list swap) :
  spacing cfg <> 0%Z ->
  step cfg i t_i t_next pool_tick st swaps
  = Returned (step_body cfg i t_i t_next pool_tick st swaps).
Proof.
  intros H. unfold step. destruct (Z.eqb_spec (spacing cfg) 0); [contradiction | reflexivity].
Qed.

Lemma step_raises (cfg : config) (i : nat) (t_i t_next pool_tick : Z) (st : state)
    (swaps : list swap) :
  spacing cfg = 0%Z ->
  step cfg i t_i t_next pool_tick st swaps = Raised ZeroDivisionError.
Proof. intros H. unfold step. rewrite H. reflexivity. Qed.

Lemma step_inv (cfg : config) (i : nat) (t_i t_next pool_tick : Z) (st : state)
    (swaps : list swap) (log : row_log) (st' : state) :
  step cfg i t_i t_next pool_tick st swaps = Returned (log, st') ->
  spacing cfg <> 0%Z /\ step_body cfg i t_i t_next pool_tick st swaps = (log, st').
Proof.
  unfold step. destruct (Z.eqb_spec (spacing cfg) 0) as [E | E]; [discriminate|].
  intros H. split; [exact E | congruence].
Qed.

(** The columns of the row and the next state, read off [step_body]. *)
Lemma step_body_log (cfg : config) (i : nat) (t_i t_next pool_tick : Z) (st : state)
    (swaps : list swap) (log : row_log) (st' : state) :
  step_body cfg i t_i t_next pool_tick st swaps = (log, st') ->
  let fees := period_fees st t_i t_next swaps in
  fees_x log = fst fees
  /\ fees_y log = snd fees
  /\ (rebalance log, reason log) = step_decision cfg i pool_tick st (fst fees)
  /\ st' = accrue cfg (settle cfg i t_i t_next pool_tick st swaps).
Proof.
  unfold step_body. intros H. injection H as <- <-. cbn.
  repeat split. symmetry. apply surjective_pairing.
Qed.

Lemma settle_eq (cfg : config) (i : nat) (t_i t_next pool_tick : Z) (st : state)
    (swaps : list swap) :
  let fees := period_fees st t_i t_next swaps in
  let d := step_decision cfg i pool_tick st (fst fees) in
  settle cfg i t_i t_next pool_tick st swaps
  = if fst d
    then rebalance_positions cfg pool_tick (step_target cfg pool_tick st (fst fees))
           (snd d) st (fund cfg i pool_tick st fees)
    else keep_positions st (fund cfg i pool_tick st fees).
Proof.
  cbv zeta. unfold settle.
  destruct (step_decision cfg i pool_tick st (fst (period_fees st t_i t_next swaps)));
    reflexivity.
Qed.

(** ** Recorded reason *)

Lemma check_rebalance_priority (i : nat) (lt bt : bool) (cur tgt : Z) :
  check_rebalance i lt bt cur tgt
  = (lt || bt || negb (cur =? tgt)%Z || Nat.eqb i 0,
     if Nat.eqb i 0 then Some initialization
     else if negb (cur =? tgt)%Z then Some delta
     else if bt then Some base_trigger
     else if lt then Some limit_trigger
     else None).
Proof.
  unfold check_rebalance.
  destruct (Nat.eqb i 0), (negb (cur =? tgt)%Z), bt, lt; reflexivity.
Qed.

Lemma check_rebalance_flag (i : nat) (lt bt : bool) (cur tgt : Z) :
  fst (check_rebalance i lt bt cur tgt) = false
  <-> snd (check_rebalance i lt bt cur tgt) = None.
Proof.
  rewrite check_rebalance_priority.
  destruct (Nat.eqb i 0), (negb (cur =? tgt)%Z), bt, lt; simpl; split; congruence.
Qed.

Lemma step_flag (cfg : config) (i : nat) (pool_tick : Z) (st : state) (fx : float64)
    (flag : bool) (tag : option reason_tag) :
  (flag, tag) = step_decision cfg i pool_tick st fx ->
  flag = false <-> tag = None.
Proof.
  unfold step_decision. intros H.
  pose proof (check_rebalance_flag i (limit_triggered cfg st pool_tick)
                (base_triggered cfg st pool_tick) (current_position cfg st)
                (step_target cfg pool_tick st fx)) as Hflag.
  rewrite <- H in Hflag. exact Hflag.
Qed.

(** C5.  The reason recorded by an iteration is the last of [limit_trigger],
    [base_trigger], [delta], [initialization] whose condition holds, the
    conditions being tested in that order: a position mismatch overrides a
    base trigger, which overrides a limit trigger, and iteration 0 always
    records [initialization].  The flag [rebalance] is set as soon as one
    condition holds, whatever the tag, and no reason is recorded otherwise. *)
Theorem recorded_reason_priority (cfg : config) (i : nat) (t_i t_next pool_tick : Z)
    (st : state) (swaps : list swap) (log : row_log) (st' : state) :
  step cfg i t_i t_next pool_tick st swaps = Returned (log, st') ->
  let limit_hit := limit_triggered cfg st pool_tick in
  let base_hit := base_triggered cfg st pool_tick in
  let mismatch :=
    negb (current_position cfg st =? step_target cfg pool_tick st (fees_x log))%Z in
  rebalance log = (limit_hit || base_hit || mismatch || Nat.eqb i 0)
  /\ reason log
     = (if Nat.eqb i 0 then Some initialization
        else if mismatch then Some delta
        else if base_hit then Some base_trigger
        else if limit_hit then Some limit_trigger
        else None)
  /\ (i = 0%nat -> reason log = Some initialization)
  /\ (rebalance log = false <-> reason log = None).
Proof.
  intros Hstep. apply step_inv in Hstep as [_ Hbody].
  apply step_body_log in Hbody as (Hfx & _ & Hdec & _).
  cbv zeta. rewrite Hfx.
  unfold step_decision in Hdec. rewrite check_rebalance_priority in Hdec.
  injection Hdec as Hreb Hreason. rewrite Hreb, Hreason.
  repeat split.
  - intros ->. reflexivity.
  - destruct (Nat.eqb i 0), (negb _), (base_triggered _ _ _), (limit_triggered _ _ _);
      simpl; intros; congruence.
  - destruct (Nat.eqb i 0), (negb _), (base_triggered _ _ _), (limit_triggered _ _ _);
      simpl; intros; congruence.
Qed.

(** ** What a rebalance writes *)

Lemma rebalance_positions_frame (cfg : config) (pool_tick target : Z)
    (r : option reason_tag) (st : state) (f : funding) :
  let st' := rebalance_positions cfg pool_tick target r st f in
  (base_lower_bound_tick st', base_upper_bound_tick st')
  = (if resets_base r then new_base_bounds cfg pool_tick target
     else (base_lower_bound_tick st, base_upper_bound_tick st))
  /\ (exists y : float64,
        (limit_lower_bound_tick st', limit_upper_bound_tick st')
        = new_limit_bounds cfg pool_tick target y)
  /\ lent st' = f_lent f
  /\ borrowed st' = f_borrowed f.
Proof.
  cbv zeta. unfold rebalance_positions.
  destruct (base_tokens cfg st pool_tick) as [bx by_].
  destruct (limit_tokens cfg st pool_tick) as [lx ly].
  destruct (if resets_base r then new_base_bounds cfg pool_tick target
            else (base_lower_bound_tick st, base_upper_bound_tick st))
    as [bl bu] eqn:Hb.
  destruct (mint_position _ _ (price_of_tick cfg bl) _ _) as [[L1 x1] y1].
  match goal with
  | |- context [new_limit_bounds cfg pool_tick target ?y] =>
      destruct (new_limit_bounds cfg pool_tick target y) as [ll lu] eqn:Hl
  end.
  destruct (mint_position _ _ (price_of_tick cfg ll) _ _) as [[L2 x2] y2].
  cbn. repeat split. eexists. symmetry. exact Hl.
Qed.

Lemma accrue_frame (cfg : config) (st : state) :
  base_lower_bound_tick (accrue cfg st) = base_lower_bound_tick st
  /\ base_upper_bound_tick (accrue cfg st) = base_upper_bound_tick st
  /\ limit_lower_bound_tick (accrue cfg st) = limit_lower_bound_tick st
  /\ limit_upper_bound_tick (accrue cfg st) = limit_upper_bound_tick st
  /\ base_liquidity (accrue cfg st) = base_liquidity st
  /\ limit_liquidity (accrue cfg st) = limit_liquidity st
  /\ outside_x (accrue cfg st) = outside_x st
  /\ outside_y (accrue cfg st) = outside_y st.
Proof. repeat split. Qed.

(** The facts about one returned iteration that the properties below use. *)
Lemma step_unfold (cfg : config) (i : nat) (t_i t_next pool_tick : Z) (st : state)
    (swaps : list swap) (log : row_log) (st' : state) :
  step cfg i t_i t_next pool_tick st swaps = Returned (log, st') ->
  let fees := (fees_x log, fees_y log) in
  let target := step_target cfg pool_tick st (fees_x log) in
  fees = period_fees st t_i t_next swaps
  /\ (rebalance log, reason log) = step_decision cfg i pool_tick st (fees_x log)
  /\ st' = accrue cfg
             (if rebalance log
              then rebalance_positions cfg pool_tick target (reason log) st
                     (fund cfg i pool_tick st fees)
              else keep_positions st (fund cfg i pool_tick st fees)).
Proof.
  intros Hstep. apply step_inv in Hstep as [_ Hbody].
  apply step_body_log in Hbody as (Hfx & Hfy & Hdec & Hst).
  cbv zeta. rewrite Hfx, Hfy, <- surjective_pairing.
  split; [reflexivity|]. split; [exact Hdec|].
  rewrite Hst, settle_eq. cbv zeta. rewrite <- Hdec. reflexivity.
Qed.

(** ** Base bounds *)

Lemma rebalance_positions_eq (cfg : config) (pool_tick target : Z)
    (r : option reason_tag) (st : state) (f : funding) :
  let pool_price := price_of_tick cfg pool_tick in
  let reserve_x :=
    (f_outside_x f
     + (fst (base_tokens cfg st pool_tick) + fst (limit_tokens cfg st pool_tick)))%fl in
  let reserve_y :=
    (f_outside_y f
     + (snd (base_tokens cfg st pool_tick) + snd (limit_tokens cfg st pool_tick)))%fl in
  let bounds := if resets_base r then new_base_bounds cfg pool_tick target
                else (base_lower_bound_tick st, base_upper_bound_tick st) in
  let base := mint_position reserve_x reserve_y (price_of_tick cfg (fst bounds))
                (price_of_tick cfg (snd bounds)) pool_price in
  let left_x := (reserve_x - snd (fst base))%fl in
  let left_y := (reserve_y - snd base)%fl in
  let limit_bounds := new_limit_bounds cfg pool_tick target left_y in
  let limit := mint_position left_x left_y (price_of_tick cfg (fst limit_bounds))
                 (price_of_tick cfg (snd limit_bounds)) pool_price in
  rebalance_positions cfg pool_tick target r st f
  = {| outside_x := (left_x - snd (fst limit))%fl;
       outside_y := (left_y - snd limit)%fl;
       base_lower_bound_tick := fst bounds;
       base_upper_bound_tick := snd bounds;
       base_liquidity := fst (fst base);
       limit_lower_bound_tick := fst limit_bounds;
       limit_upper_bound_tick := snd limit_bounds;
       limit_liquidity := fst (fst limit);
       lent := f_lent f;
       borrowed := f_borrowed f |}.
Proof.
  cbv zeta. unfold rebalance_positions.
  destruct (base_tokens cfg st pool_tick) as [bx by_].
  destruct (limit_tokens cfg st pool_tick) as [lx ly]. cbn [fst snd].
  destruct (if resets_base r then new_base_bounds cfg pool_tick target
            else (base_lower_bound_tick st, base_upper_bound_tick st))
    as [bl bu]. cbn [fst snd].
  destruct (mint_position _ _ (price_of_tick cfg bl) _ _) as [[L1 x1] y1].
  cbn [fst snd].
  destruct (new_limit_bounds cfg pool_tick target _) as [ll lu]. cbn [fst snd].
  destruct (mint_position _ _ (price_of_tick cfg ll) _ _) as [[L2 x2] y2].
  reflexivity.
Qed.


Lemma target_position_range (cfg : config) (d b : float64) :
  (target_position cfg d b = -1 \/ target_position cfg d b = 0
   \/ target_position cfg d b = 1)%Z.
Proof.
  unfold target_position.
  destruct (F.ltb _ _), (F.ltb _ _); simpl; auto.
Qed.

Lemma new_base_bounds_cases (cfg : config) (pool_tick target : Z) :
  let s := spacing cfg in
  (target = 1 ->
   new_base_bounds cfg pool_tick target
   = ((pool_tick - base_lower_bound_ticks cfg) / s * s, max_aligned_tick cfg))%Z
  /\ (target = -1 ->
      new_base_bounds cfg pool_tick target
      = (min_aligned_tick cfg, (pool_tick + base_upper_bound_ticks cfg) / s * s))%Z
  /\ (target = 0 ->
      new_base_bounds cfg pool_tick target
      = ((pool_tick - base_lower_bound_ticks cfg) / s * s,
         (pool_tick + base_upper_bound_ticks cfg) / s * s))%Z.
Proof.
  cbv zeta. unfold new_base_bounds.
  repeat split; intros ->; cbn [Z.eqb orb Z.b2z Pos.eqb]; f_equal; ring.
Qed.

(** C7, as the code has it.  A rebalance recorded as [base_trigger], [delta]
    or [initialization] sets the base bounds from the target position, which
    is always -1, 0 or 1.  At +1 the base range runs from
    [(pool_tick - base_lower_bound_ticks)] rounded down to the spacing up to
    the largest aligned tick [887272//spacing*spacing]; at -1 it runs from the
    smallest aligned tick [-887272//spacing*spacing+spacing] up to
    [(pool_tick + base_upper_bound_ticks)] rounded down to the spacing; at 0
    it runs between those two rounded ticks. *)
Theorem base_bounds_follow_target (cfg : config) (i : nat)
    (t_i t_next pool_tick : Z) (st : state) (swaps : list swap)
    (log : row_log) (st' : state) :
  step cfg i t_i t_next pool_tick st swaps = Returned (log, st') ->
  reason log = Some base_trigger \/ reason log = Some delta
  \/ reason log = Some initialization ->
  let s := spacing cfg in
  let target := step_target cfg pool_tick st (fees_x log) in
  let lower_centered := ((pool_tick - base_lower_bound_ticks cfg) / s * s)%Z in
  let upper_centered := ((pool_tick + base_upper_bound_ticks cfg) / s * s)%Z in
  (target = -1 \/ target = 0 \/ target = 1)%Z
  /\ (target = 1%Z ->
      base_lower_bound_tick st' = lower_centered
      /\ base_upper_bound_tick st' = max_aligned_tick cfg)
  /\ (target = (-1)%Z ->
      base_lower_bound_tick st' = min_aligned_tick cfg
      /\ base_upper_bound_tick st' = upper_centered)
  /\ (target = 0%Z ->
      base_lower_bound_tick st' = lower_centered
      /\ base_upper_bound_tick st' = upper_centered).
Proof.
  intros Hstep Hreason. cbv zeta.
  apply step_unfold in Hstep as (_ & Hdec & Hst).
  pose proof (step_flag _ _ _ _ _ _ _ Hdec) as Hnone.
  assert (Hreb : rebalance log = true).
  { destruct (rebalance log); [reflexivity|].
    destruct Hnone as [Hn _]. rewrite Hn in Hreason by reflexivity.
    destruct Hreason as [H | [H | H]]; discriminate. }
  assert (Hresets : resets_base (reason log) = true).
  { destruct Hreason as [H | [H | H]]; rewrite H; reflexivity. }
  rewrite Hreb in Hst.
  destruct (rebalance_positions_frame cfg pool_tick
              (step_target cfg pool_tick st (fees_x log)) (reason log) st
              (fund cfg i pool_tick st (fees_x log, fees_y log)))
    as (Hbase & _).
  rewrite Hresets in Hbase.
  assert (Hpair : (base_lower_bound_tick st', base_upper_bound_tick st')
                  = new_base_bounds cfg pool_tick
                      (step_target cfg pool_tick st (fees_x log))).
  { subst st'. exact Hbase. }
  destruct (new_base_bounds_cases cfg pool_tick
              (step_target cfg pool_tick st (fees_x log))) as (Hp & Hm & Hz).
  split; [apply target_position_range|].
  split; [|split]; intros Ht;
    [rewrite (Hp Ht) in Hpair | rewrite (Hm Ht) in Hpair | rewrite (Hz Ht) in Hpair];
    injection Hpair as Hlo Hhi; split; assumption.
Qed.

(** ** Iterations without a rebalance *)

(** C9.  An iteration that does not rebalance records no reason and changes
    nothing but the outside reserves, which grow by the fees attributed to the
    period, and the hedge balances, which compound: bound ticks and liquidity
    of both positions are carried over as they are. *)
Theorem no_rebalance_frame (cfg : config) (i : nat)
    (t_i t_next pool_tick : Z) (st : state) (swaps : list swap)
    (log : row_log) (st' : state) :
  step cfg i t_i t_next pool_tick st swaps = Returned (log, st') ->
  rebalance log = false ->
  -1 < lending_apy cfg -> -1 < borrowing_apy cfg ->
  reason log = None
  /\ st' = {| outside_x := (outside_x st + fees_x log)%fl;
              outside_y := (outside_y st + fees_y log)%fl;
              base_lower_bound_tick := base_lower_bound_tick st;
              base_upper_bound_tick := base_upper_bound_tick st;
              base_liquidity := base_liquidity st;
              limit_lower_bound_tick := limit_lower_bound_tick st;
              limit_upper_bound_tick := limit_upper_bound_tick st;
              limit_liquidity := limit_liquidity st;
              lent :=
                (lent st * Fin (Rpower (1 + lending_apy cfg) (1 / (365 * 24 * 12))))%fl;
              borrowed :=
                (borrowed st
                 * Fin (Rpower (1 + borrowing_apy cfg) (1 / (365 * 24 * 12))))%fl |}.
Proof.
  intros Hstep Hreb _ _.
  apply step_unfold in Hstep as (_ & Hdec & Hst).
  pose proof (step_flag _ _ _ _ _ _ _ Hdec) as Hnone.
  split; [apply Hnone, Hreb|].
  rewrite Hreb in Hst.
  assert (Hi : Nat.eqb i 0 = false).
  { unfold step_decision in Hdec. rewrite check_rebalance_priority in Hdec.
    injection Hdec as Hflag _. rewrite Hreb in Hflag.
    destruct (Nat.eqb i 0); [|reflexivity].
    rewrite orb_true_r in Hflag. discriminate. }
  subst st'. unfold accrue, keep_positions, fund, compound. rewrite Hi. reflexivity.
Qed.

(** ** Hedge balances *)

(** C10.  The first iteration sets [lent = start_value*2/3] and
    [borrowed = lent/2/pool_price]; after it no iteration touches the hedge
    other than by compounding, whether it rebalances or not and whatever the
    reason: for every [i >= 1] the next [lent] is [lent] times
    [(1+lending_apy)**(1/(365*24*12))] and the next [borrowed] is [borrowed]
    times [(1+borrowing_apy)**(1/(365*24*12))]. *)
Theorem hedge_only_compounds (cfg : config) (i : nat)
    (t_i t_next pool_tick : Z) (st : state) (swaps : list swap)
    (log : row_log) (st' : state) :
  step cfg i t_i t_next pool_tick st swaps = Returned (log, st') ->
  -1 < lending_apy cfg -> -1 < borrowing_apy cfg ->
  let lending := Rpower (1 + lending_apy cfg) (1 / (365 * 24 * 12)) in
  let borrowing := Rpower (1 + borrowing_apy cfg) (1 / (365 * 24 * 12)) in
  ((1 <= i)%nat ->
   lent st' = (lent st * Fin lending)%fl
   /\ borrowed st' = (borrowed st * Fin borrowing)%fl)
  /\ (i = 0%nat ->
      lent st' = Fin (start_value cfg * 2 / 3 * lending)
      /\ borrowed st'
         = Fin (start_value cfg * 2 / 3 / (2 * tick_price cfg pool_tick) * borrowing)).
Proof.
  intros Hstep _ _. cbv zeta.
  apply step_unfold in Hstep as (_ & _ & Hst).
  assert (Hhedge :
    lent st' = (f_lent (fund cfg i pool_tick st (fees_x log, fees_y log))
                * compound (lending_apy cfg))%fl
    /\ borrowed st' = (f_borrowed (fund cfg i pool_tick st (fees_x log, fees_y log))
                       * compound (borrowing_apy cfg))%fl).
  { subst st'. cbn [accrue lent borrowed].
    destruct (rebalance log).
    - destruct (rebalance_positions_frame cfg pool_tick
                  (step_target cfg pool_tick st (fees_x log)) (reason log) st
                  (fund cfg i pool_tick st (fees_x log, fees_y log)))
        as (_ & _ & Hl & Hb).
      rewrite Hl, Hb. split; reflexivity.
    - split; reflexivity. }
  destruct Hhedge as [Hl Hb]. rewrite Hl, Hb. unfold fund, compound.
  split.
  - intros Hi. destruct i as [|k]; [lia|]. cbn [Nat.eqb f_lent f_borrowed].
    split; reflexivity.
  - intros ->. cbn [Nat.eqb f_lent f_borrowed].
    rewrite price_of_tick_Fin.
    pose proof (tick_price_pos cfg pool_tick) as Hp.
    rewrite div_Fin by lra. rewrite !mul_Fin.
    split; f_equal. field. lra.
Qed.

(** ** Conservation of tokens by a rebalance *)

Lemma new_limit_bounds_proper (cfg : config) (pool_tick target : Z) (y : float64) :
  (0 < spacing cfg)%Z ->
  (fst (new_limit_bounds cfg pool_tick target y)
   < snd (new_limit_bounds cfg pool_tick target y))%Z.
Proof.
  intros Hs. unfold new_limit_bounds.
  destruct (F.eqb y (Fin 0)); cbn [fst snd]; lia.
Qed.

Lemma position_tokens_Fin (cfg : config) (L : R) (lower upper pool_tick : Z) :
  get_quantities (Fin L) (price_of_tick cfg lower) (price_of_tick cfg upper)
    (price_of_tick cfg pool_tick)
  = (Fin (fst (tokens_of cfg L lower upper pool_tick)),
     Fin (snd (tokens_of cfg L lower upper pool_tick))).
Proof.
  rewrite !price_of_tick_Fin. apply get_quantities_Fin; apply tick_price_pos.
Qed.

(** A mint over a proper tick range: finite results that [get_quantities]
    gives back. *)
Lemma mint_over_ticks (cfg : config) (x y : R) (lower upper pool_tick : Z) :
  (lower < upper)%Z ->
  exists L ux uy : R,
    mint_position (Fin x) (Fin y) (price_of_tick cfg lower) (price_of_tick cfg upper)
      (price_of_tick cfg pool_tick)
    = (Fin L, Fin ux, Fin uy)
    /\ get_quantities (Fin L) (price_of_tick cfg lower) (price_of_tick cfg upper)
         (price_of_tick cfg pool_tick)
       = (Fin ux, Fin uy).
Proof.
  intros Hlt.
  destruct (mint_position_Fin x y (tick_price cfg lower) (tick_price cfg upper)
              (tick_price cfg pool_tick))
    as (L & ux & uy & Hm & Hx & Hy & _).
  - apply tick_price_pos.
  - apply tick_price_lt, Hlt.
  - apply tick_price_pos.
  - exists L, ux, uy. rewrite position_tokens_Fin. unfold tokens_of. cbn [fst snd].
    rewrite Hx, Hy, !price_of_tick_Fin. split; [exact Hm | reflexivity].
Qed.

Lemma rebalance_positions_conserves (cfg : config) (pool_tick target : Z)
    (r : option reason_tag) (st : state) (f : funding) (bL lL fx fy : R) :
  (0 < spacing cfg)%Z ->
  base_liquidity st = Fin bL -> limit_liquidity st = Fin lL ->
  f_outside_x f = Fin fx -> f_outside_y f = Fin fy ->
  let st' := rebalance_positions cfg pool_tick target r st f in
  (base_lower_bound_tick st' < base_upper_bound_tick st')%Z ->
  exists X Y : R,
    total_x cfg pool_tick st (f_outside_x f) = Fin X
    /\ total_x cfg pool_tick st' (outside_x st') = Fin X
    /\ total_y cfg pool_tick st (f_outside_y f) = Fin Y
    /\ total_y cfg pool_tick st' (outside_y st') = Fin Y.
Proof.
  intros Hs HbL HlL Hfx Hfy st' Hbase.
  assert (Hst' : st' = rebalance_positions cfg pool_tick target r st f) by reflexivity.
  clearbody st'.
  assert (Hbt : base_tokens cfg st pool_tick
                = (Fin (fst (tokens_of cfg bL (base_lower_bound_tick st)
                               (base_upper_bound_tick st) pool_tick)),
                   Fin (snd (tokens_of cfg bL (base_lower_bound_tick st)
                               (base_upper_bound_tick st) pool_tick)))).
  { unfold base_tokens. rewrite HbL. apply position_tokens_Fin. }
  assert (Hlt : limit_tokens cfg st pool_tick
                = (Fin (fst (tokens_of cfg lL (limit_lower_bound_tick st)
                               (limit_upper_bound_tick st) pool_tick)),
                   Fin (snd (tokens_of cfg lL (limit_lower_bound_tick st)
                               (limit_upper_bound_tick st) pool_tick)))).
  { unfold limit_tokens. rewrite HlL. apply position_tokens_Fin. }
  destruct (tokens_of cfg bL _ _ pool_tick) as [bx by_].
  destruct (tokens_of cfg lL _ _ pool_tick) as [lx ly].
  cbn [fst snd] in Hbt, Hlt.
  unfold rebalance_positions in Hst'.
  rewrite Hbt, Hlt, Hfx, Hfy, !add_Fin in Hst'.
  destruct (if resets_base r then new_base_bounds cfg pool_tick target
            else (base_lower_bound_tick st, base_upper_bound_tick st))
    as [bl bu].
  destruct (mint_position _ _ (price_of_tick cfg bl) _ _) as [[L1 x1] y1] eqn:Hm1.
  match type of Hst' with
  | context [new_limit_bounds cfg pool_tick target ?y] =>
      pose proof (new_limit_bounds_proper cfg pool_tick target y Hs) as Hlim;
      destruct (new_limit_bounds cfg pool_tick target y) as [ll lu]
  end.
  cbn [fst snd] in Hlim.
  destruct (mint_position _ _ (price_of_tick cfg ll) _ _) as [[L2 x2] y2] eqn:Hm2.
  subst st'. cbn [base_lower_bound_tick base_upper_bound_tick] in Hbase.
  destruct (mint_over_ticks cfg (fx + (bx + lx)) (fy + (by_ + ly)) bl bu pool_tick Hbase)
    as (L1' & ux1 & uy1 & Hm1' & Hq1).
  rewrite Hm1' in Hm1. injection Hm1 as <- <- <-.
  rewrite !sub_Fin in Hm2.
  destruct (mint_over_ticks cfg (fx + (bx + lx) - ux1) (fy + (by_ + ly) - uy1)
              ll lu pool_tick Hlim)
    as (L2' & ux2 & uy2 & Hm2' & Hq2).
  rewrite Hm2' in Hm2. injection Hm2 as <- <- <-.
  unfold total_x, total_y. rewrite Hbt, Hlt, Hfx, Hfy.
  unfold base_tokens, limit_tokens.
  cbn [base_liquidity base_lower_bound_tick base_upper_bound_tick
       limit_liquidity limit_lower_bound_tick limit_upper_bound_tick
       outside_x outside_y].
  rewrite Hq1, Hq2. cbn [fst snd]. rewrite !sub_Fin, !add_Fin.
  exists (bx + lx + fx), (by_ + ly + fy).
  repeat split; f_equal; ring.
Qed.

Lemma fund_outside_Fin (cfg : config) (i : nat) (pool_tick : Z) (st : state)
    (ox oy fx fy : R) :
  outside_x st = Fin ox -> outside_y st = Fin oy ->
  exists a b : R,
    f_outside_x (fund cfg i pool_tick st (Fin fx, Fin fy)) = Fin a
    /\ f_outside_y (fund cfg i pool_tick st (Fin fx, Fin fy)) = Fin b.
Proof.
  intros Hx Hy. unfold fund. destruct (Nat.eqb i 0); cbn [f_outside_x f_outside_y fst snd].
  - rewrite price_of_tick_Fin.
    pose proof (tick_price_pos cfg pool_tick).
    rewrite div_Fin by lra. eauto.
  - rewrite Hx, Hy, !add_Fin. eauto.
Qed.

(** The base range that the script's own parameters give is proper for every
    pool tick within the protocol's limits. *)
Lemma default_base_bounds_proper (pool_tick target : Z) :
  (-887272 <= pool_tick <= 887272)%Z ->
  (target = -1 \/ target = 0 \/ target = 1)%Z ->
  (fst (new_base_bounds default_config pool_tick target)
   < snd (new_base_bounds default_config pool_tick target))%Z.
Proof.
  intros Hp [-> | [-> | ->]]; unfold new_base_bounds, min_aligned_tick, max_aligned_tick;
    cbn [default_config spacing base_lower_bound_ticks base_upper_bound_ticks
         fst snd Z.eqb orb Z.b2z Pos.eqb];
    Z.div_mod_to_equations; lia.
Qed.

(** C1.  At every iteration that rebalances, burning both positions and
    minting them again conserves the holdings of each token.  The balances of
    the row, the fees and the liquidity are real numbers, and the base range
    that is minted is proper.  Then, all token amounts being taken at the
    pool price of the iteration, [base_x + limit_x + outside_x] just before
    the burn equals the same sum over the next row, and so does
    [base_y + limit_y + outside_y]; the value of the holdings at that price is
    therefore the same as well. *)
Theorem rebalance_conserves_holdings (cfg : config) (i : nat)
    (t_i t_next pool_tick : Z) (st : state) (swaps : list swap)
    (log : row_log) (st' : state) (bL lL ox oy fx fy : R) :
  step cfg i t_i t_next pool_tick st swaps = Returned (log, st') ->
  rebalance log = true ->
  (0 < spacing cfg)%Z ->
  base_liquidity st = Fin bL -> limit_liquidity st = Fin lL ->
  outside_x st = Fin ox -> outside_y st = Fin oy ->
  fees_x log = Fin fx -> fees_y log = Fin fy ->
  (base_lower_bound_tick st' < base_upper_bound_tick st')%Z ->
  let before := fund cfg i pool_tick st (fees_x log, fees_y log) in
  exists X Y : R,
    total_x cfg pool_tick st (f_outside_x before) = Fin X
    /\ total_x cfg pool_tick st' (outside_x st') = Fin X
    /\ total_y cfg pool_tick st (f_outside_y before) = Fin Y
    /\ total_y cfg pool_tick st' (outside_y st') = Fin Y
    /\ (total_x cfg pool_tick st' (outside_x st') * price_of_tick cfg pool_tick
        + total_y cfg pool_tick st' (outside_y st'))%fl
       = (total_x cfg pool_tick st (f_outside_x before) * price_of_tick cfg pool_tick
          + total_y cfg pool_tick st (f_outside_y before))%fl.
Proof.
  intros Hstep Hreb Hs HbL HlL Hox Hoy Hfx Hfy Hbase before.
  apply step_unfold in Hstep as (_ & _ & Hst).
  rewrite Hreb in Hst. fold before in Hst.
  destruct (fund_outside_Fin cfg i pool_tick st ox oy fx fy Hox Hoy)
    as (a & b & Ha & Hb).
  rewrite <- Hfx, <- Hfy in Ha, Hb. fold before in Ha, Hb.
  assert (Hbase' :
    (base_lower_bound_tick
       (rebalance_positions cfg pool_tick (step_target cfg pool_tick st (fees_x log))
          (reason log) st before)
     < base_upper_bound_tick
         (rebalance_positions cfg pool_tick (step_target cfg pool_tick st (fees_x log))
            (reason log) st before))%Z).
  { subst st'. exact Hbase. }
  destruct (rebalance_positions_conserves cfg pool_tick
              (step_target cfg pool_tick st (fees_x log)) (reason log) st before
              bL lL a b Hs HbL HlL Ha Hb Hbase')
    as (X & Y & HX & HX' & HY & HY').
  assert (HtX : total_x cfg pool_tick st' (outside_x st') = Fin X).
  { subst st'. exact HX'. }
  assert (HtY : total_y cfg pool_tick st' (outside_y st') = Fin Y).
  { subst st'. exact HY'. }
  exists X, Y. rewrite HX, HY, HtX, HtY. repeat split.
Qed.

(** ** Evaluation on the sample rows *)

Lemma sample_step_returned (i : nat) (st : state) :
  step default_config i 0 300 0 st []
  = Returned (fst (sample_step i st), snd (sample_step i st)).
Proof. reflexivity. Qed.

Lemma sample_step_decision (i : nat) (st : state) :
  (rebalance (fst (sample_step i st)), reason (fst (sample_step i st)))
  = step_decision default_config i 0 st (Fin 0).
Proof. symmetry. apply surjective_pairing. Qed.

Lemma sample_flags (i : nat) (st : state) (flag : bool) (tag : option reason_tag) :
  step_decision default_config i 0 st (Fin 0) = (flag, tag) ->
  rebalance (fst (sample_step i st)) = flag /\ reason (fst (sample_step i st)) = tag.
Proof.
  intros H. pose proof (sample_step_decision i st) as Hdec. rewrite H in Hdec.
  split; [exact (f_equal fst Hdec) | exact (f_equal snd Hdec)].
Qed.

(** The base bounds that an iteration on a sample row writes when its reason
    asks for new ones. *)
Lemma sample_resets_base (i : nat) (st : state) (tag : option reason_tag) :
  step_decision default_config i 0 st (Fin 0) = (true, tag) ->
  resets_base tag = true ->
  (base_lower_bound_tick (snd (sample_step i st)),
   base_upper_bound_tick (snd (sample_step i st)))
  = new_base_bounds default_config 0 (step_target default_config 0 st (Fin 0)).
Proof.
  intros Hdec Hresets.
  unfold sample_step, step_body. cbn [snd].
  rewrite settle_eq. cbv zeta.
  change (period_fees st 0 300 []) with (Fin 0, Fin 0). cbn [fst snd].
  rewrite Hdec. cbn [fst snd].
  destruct (rebalance_positions_frame default_config 0
              (step_target default_config 0 st (Fin 0)) tag st
              (fund default_config i 0 st (Fin 0, Fin 0)))
    as (Hbase & _).
  rewrite Hresets in Hbase. exact Hbase.
Qed.

Lemma sample_step_fees (i : nat) (st : state) :
  fees_x (fst (sample_step i st)) = Fin 0 /\ fees_y (fst (sample_step i st)) = Fin 0.
Proof. split; reflexivity. Qed.

Lemma hedge_delta_empty (cfg : config) (st : state) (pool_tick : Z) (x b fx : R) :
  base_liquidity st = Fin 0 -> limit_liquidity st = Fin 0 ->
  outside_x st = Fin x -> borrowed st = Fin b ->
  hedge_delta cfg st pool_tick (Fin fx) = Fin (x + fx - b).
Proof.
  intros HbL HlL Hx Hb. unfold hedge_delta, base_tokens, limit_tokens.
  rewrite HbL, HlL, Hx, Hb, !position_tokens_Fin. unfold tokens_of. cbn [fst snd].
  rewrite neg_Fin, !add_Fin. f_equal. ring.
Qed.

Lemma target_position_Fin (cfg : config) (d b : R) :
  b <> 0 ->
  target_position cfg (Fin d) (Fin b)
  = (1 * Z.b2z (Rltb (d / b) (- delta_threshold cfg))
     - 1 * Z.b2z (Rltb (delta_threshold cfg) (d / b)))%Z.
Proof. intros Hb. unfold target_position. rewrite div_Fin by exact Hb. reflexivity. Qed.

(** With nothing borrowed the ratio is a division by zero: [nan] when the
    exposure is zero, an infinity of its sign otherwise. *)
Lemma target_position_zero_debt (cfg : config) (d : float64) :
  target_position cfg d (Fin 0)
  = match d with
    | Fin r => if Rltb 0 r then (-1)%Z else if Rltb r 0 then 1%Z else 0%Z
    | PInf => (-1)%Z
    | NInf => 1%Z
    | NaN => 0%Z
    end.
Proof.
  unfold target_position. destruct d as [r | | |]; cbn [F.div].
  - rewrite (Reqb_true 0 0) by reflexivity.
    destruct (Reqb_spec r 0) as [-> | Hr].
    + rewrite !Rltb_false by lra. reflexivity.
    + destruct (Rltb_spec 0 r) as [Hpos | Hneg]; [reflexivity|].
      assert (Hlt : r < 0) by (destruct (Rtotal_order r 0) as [H | [H | H]]; lra).
      rewrite (Rltb_true r 0) by exact Hlt. reflexivity.
  - rewrite (Rleb_true 0 0) by lra. reflexivity.
  - rewrite (Rleb_true 0 0) by lra. reflexivity.
  - reflexivity.
Qed.

Lemma sample_target_hedged (limit_lower limit_upper : Z) :
  step_target default_config 0 (sample_row limit_lower limit_upper 1) (Fin 0) = 0%Z.
Proof.
  unfold step_target.
  rewrite (hedge_delta_empty _ _ _ 1 1 0) by reflexivity.
  cbn [sample_row borrowed]. rewrite target_position_Fin by lra.
  cbn [default_config delta_threshold].
  rewrite !Rltb_false by lra. reflexivity.
Qed.

Lemma sample_target_short (limit_lower limit_upper : Z) :
  step_target default_config 0 (sample_row limit_lower limit_upper 0) (Fin 0) = 1%Z.
Proof.
  unfold step_target.
  rewrite (hedge_delta_empty _ _ _ 0 1 0) by reflexivity.
  cbn [sample_row borrowed]. rewrite target_position_Fin by lra.
  cbn [default_config delta_threshold].
  rewrite Rltb_true, Rltb_false by lra. reflexivity.
Qed.

Lemma initial_target : step_target default_config 0 initial_state (Fin 0) = 0%Z.
Proof.
  unfold step_target.
  rewrite (hedge_delta_empty _ _ _ 0 0 0) by reflexivity.
  cbn [initial_state borrowed]. rewrite target_position_zero_debt.
  rewrite !Rltb_false by lra. reflexivity.
Qed.

Lemma quiet_decision : step_decision default_config 1 0 row_quiet (Fin 0) = (false, None).
Proof.
  unfold step_decision. rewrite check_rebalance_priority.
  unfold row_quiet. rewrite sample_target_hedged. reflexivity.
Qed.

Lemma limit_out_decision :
  step_decision default_config 1 0 row_limit_out (Fin 0) = (true, Some limit_trigger).
Proof.
  unfold step_decision. rewrite check_rebalance_priority.
  unfold row_limit_out. rewrite sample_target_hedged. reflexivity.
Qed.

Lemma short_decision :
  step_decision default_config 1 0 row_short (Fin 0) = (true, Some delta).
Proof.
  unfold step_decision. rewrite check_rebalance_priority.
  unfold row_short. rewrite sample_target_short. reflexivity.
Qed.

Lemma first_decision (st : state) :
  step_decision default_config 0 0 st (Fin 0) = (true, Some initialization).
Proof.
  unfold step_decision. rewrite check_rebalance_priority.
  cbn [Nat.eqb]. rewrite orb_true_r. reflexivity.
Qed.


(** ** Nothing borrowed *)

(** C4, as the code has it.  When the ratio [delta/borrowed] is taken with
    nothing borrowed, as at the first iteration, nothing guards the division
    and nothing is raised: the iteration returns.  The quotient is [nan] for
    a zero exposure and an infinity of the sign of the exposure otherwise, so
    the target position is 0, -1 for a positive and +1 for a negative
    exposure, whatever the threshold.  The first iteration then records
    [initialization] and rebalances. *)
Theorem zero_debt_ratio_unguarded (cfg : config) (i : nat)
    (t_i t_next pool_tick : Z) (st : state) (swaps : list swap) :
  spacing cfg <> 0%Z ->
  borrowed st = Fin 0 ->
  exists (log : row_log) (st' : state),
    step cfg i t_i t_next pool_tick st swaps = Returned (log, st')
    /\ step_target cfg pool_tick st (fees_x log)
       = match hedge_delta cfg st pool_tick (fees_x log) with
         | Fin r => if Rltb 0 r then (-1)%Z else if Rltb r 0 then 1%Z else 0%Z
         | PInf => (-1)%Z
         | NInf => 1%Z
         | NaN => 0%Z
         end
    /\ (i = 0%nat -> rebalance log = true /\ reason log = Some initialization).
Proof.
  intros Hs Hb.
  exists (fst (step_body cfg i t_i t_next pool_tick st swaps)),
         (snd (step_body cfg i t_i t_next pool_tick st swaps)).
  split; [rewrite <- surjective_pairing; apply step_returns, Hs|].
  split.
  - unfold step_target. rewrite Hb. apply target_position_zero_debt.
  - intros ->. unfold step_body. cbn [fst rebalance reason].
    unfold step_decision. rewrite check_rebalance_priority.
    cbn [Nat.eqb fst snd]. rewrite orb_true_r. split; reflexivity.
Qed.

Lemma zero_debt_ratio_unguarded_witness :
  exists (log : row_log) (st' : state),
    step default_config 0 0 300 0 initial_state [] = Returned (log, st')
    /\ reason log = Some initialization.
Proof.
  destruct (zero_debt_ratio_unguarded default_config 0 0 300 0 initial_state [])
    as (log & st' & Hstep & _ & Hfirst).
  - discriminate.
  - reflexivity.
  - exists log, st'. split; [exact Hstep | apply Hfirst; reflexivity].
Defined.

(** The first iteration of every run divides by a zero [borrowed]: the
    quotient is [nan], no exception is raised and the run goes on. *)
Lemma first_iteration_divides_by_zero :
  borrowed initial_state = Fin 0
  /\ (hedge_delta default_config initial_state 0 (Fin 0) / borrowed initial_state)%fl = NaN
  /\ (forall e : exn, step default_config 0 0 300 0 initial_state [] <> Raised e)
  /\ exists rows : list (row_log * state),
       backtest default_config
         [ {| timestamp := 0; tick := 0 |}; {| timestamp := 300; tick := 0 |} ] []
       = Returned rows.
Proof.
  split; [reflexivity|]. split; [|split].
  - rewrite (hedge_delta_empty _ _ _ 0 0 0) by reflexivity.
    cbn [initial_state borrowed F.div].
    rewrite (Reqb_true 0 0) by reflexivity.
    rewrite (Reqb_true (0 + 0 - 0) 0) by ring. reflexivity.
  - intros e. rewrite sample_step_returned. discriminate.
  - eexists. reflexivity.
Qed.

(** ** Witnesses and counterexamples on the sample rows *)

Lemma recorded_reason_priority_witness :
  rebalance (fst (sample_step 1 row_limit_out)) = true
  /\ reason (fst (sample_step 1 row_limit_out)) = Some limit_trigger.
Proof.
  destruct (recorded_reason_priority default_config 1 0 300 0 row_limit_out []
              _ _ (sample_step_returned 1 row_limit_out))
    as (Hreb & Hreason & _).
  exact (sample_flags 1 row_limit_out _ _ limit_out_decision).
Defined.


Lemma short_reason : reason (fst (sample_step 1 row_short)) = Some delta.
Proof. exact (proj2 (sample_flags 1 row_short _ _ short_decision)). Qed.

Lemma base_bounds_follow_target_witness :
  base_lower_bound_tick (snd (sample_step 1 row_short)) = (-300)%Z
  /\ base_upper_bound_tick (snd (sample_step 1 row_short)) = 887220%Z.
Proof.
  destruct (base_bounds_follow_target default_config 1 0 300 0 row_short []
              _ _ (sample_step_returned 1 row_short) (or_intror (or_introl short_reason)))
    as (_ & Hlong & _).
  apply Hlong. exact (sample_target_short (-60) 0).
Defined.

(** C7 as the specification words it fails: with the target position +1 the
    base range does not start at [(pool_tick + base_upper_bound_ticks)]
    rounded down to the spacing.  On [row_short], at pool tick 0 with both
    offsets 300 and spacing 60, the reason is [delta], the target is +1 and
    the new base range is [-300, 887220), whereas the tick so computed is
    300. *)
Lemma base_lower_not_from_upper_offset :
  exists (log : row_log) (st' : state),
    step default_config 1 0 300 0 row_short [] = Returned (log, st')
    /\ reason log = Some delta
    /\ step_target default_config 0 row_short (fees_x log) = 1%Z
    /\ base_lower_bound_tick st' = (-300)%Z
    /\ base_upper_bound_tick st' = max_aligned_tick default_config
    /\ ((0 + base_upper_bound_ticks default_config) / spacing default_config
        * spacing default_config = 300)%Z
    /\ base_lower_bound_tick st'
       <> ((0 + base_upper_bound_ticks default_config) / spacing default_config
           * spacing default_config)%Z.
Proof.
  exists (fst (sample_step 1 row_short)), (snd (sample_step 1 row_short)).
  pose proof (sample_step_returned 1 row_short) as Hstep.
  pose proof (sample_resets_base 1 row_short _ short_decision eq_refl) as Hbounds.
  unfold row_short in Hbounds at 3. rewrite sample_target_short in Hbounds.
  change (new_base_bounds default_config 0 1) with ((-300)%Z, 887220%Z) in Hbounds.
  pose proof (f_equal fst Hbounds) as Hlo. pose proof (f_equal snd Hbounds) as Hhi.
  cbn [fst snd] in Hlo, Hhi.
  split; [exact Hstep|]. split; [exact short_reason|].
  split; [apply sample_target_short|].
  rewrite Hlo, Hhi. repeat split. discriminate.
Qed.

Lemma no_rebalance_frame_witness :
  reason (fst (sample_step 1 row_quiet)) = None
  /\ base_liquidity (snd (sample_step 1 row_quiet)) = base_liquidity row_quiet
  /\ outside_x (snd (sample_step 1 row_quiet))
     = (outside_x row_quiet + fees_x (fst (sample_step 1 row_quiet)))%fl.
Proof.
  pose proof (proj1 (sample_flags 1 row_quiet _ _ quiet_decision)) as Hreb.
  destruct (no_rebalance_frame default_config 1 0 300 0 row_quiet []
              _ _ (sample_step_returned 1 row_quiet) Hreb)
    as (Hnone & Hst).
  - cbn [default_config lending_apy]. lra.
  - cbn [default_config borrowing_apy]. lra.
  - split; [exact Hnone|]. rewrite Hst. split; reflexivity.
Defined.

Lemma hedge_only_compounds_witness :
  lent (snd (sample_step 1 row_short))
  = (lent row_short * Fin (Rpower (1 + 5 / 100) (1 / (365 * 24 * 12))))%fl
  /\ borrowed (snd (sample_step 1 row_short))
     = (borrowed row_short * Fin (Rpower (1 + 2 / 100) (1 / (365 * 24 * 12))))%fl.
Proof.
  destruct (hedge_only_compounds default_config 1 0 300 0 row_short []
              _ _ (sample_step_returned 1 row_short))
    as (Hlater & _).
  - cbn [default_config lending_apy]. lra.
  - cbn [default_config borrowing_apy]. lra.
  - apply Hlater. apply le_n.
Defined.

Lemma rebalance_conserves_holdings_witness :
  let log := fst (sample_step 0 initial_state) in
  let st' := snd (sample_step 0 initial_state) in
  let before := fund default_config 0 0 initial_state (fees_x log, fees_y log) in
  exists X Y : R,
    total_x default_config 0 initial_state (f_outside_x before) = Fin X
    /\ total_x default_config 0 st' (outside_x st') = Fin X
    /\ total_y default_config 0 initial_state (f_outside_y before) = Fin Y
    /\ total_y default_config 0 st' (outside_y st') = Fin Y.
Proof.
  intros log st' before.
  pose proof (sample_step_returned 0 initial_state) as Hstep.
  pose proof (proj1 (sample_flags 0 initial_state _ _ (first_decision _))) as Hreb.
  pose proof (sample_resets_base 0 initial_state _ (first_decision _) eq_refl) as Hbounds.
  rewrite initial_target in Hbounds.
  change (new_base_bounds default_config 0 0) with ((-300)%Z, 300%Z) in Hbounds.
  pose proof (f_equal fst Hbounds) as Hlo. pose proof (f_equal snd Hbounds) as Hhi.
  cbn [fst snd] in Hlo, Hhi.
  destruct (rebalance_conserves_holdings default_config 0 0 300 0 initial_state []
              log st' 0 0 0 0 0 0 Hstep Hreb)
    as (X & Y & HX & HX' & HY & HY' & _); try reflexivity.
  - fold st' in Hlo, Hhi. rewrite Hlo, Hhi. reflexivity.
  - exists X, Y. repeat split; assumption.
Defined.

(** * Further properties of the code *)

(** ** Token amounts of a position *)

Lemma clamp_between (l u p : R) :
  l < u ->
  l <= conditional_price l u p <= u
  /\ (p <= l -> conditional_price l u p = l)
  /\ (u <= p -> conditional_price l u p = u)
  /\ (l <= p <= u -> conditional_price l u p = p).
Proof.
  intros Hlu. rewrite (conditional_price_clamp l u p Hlu).
  destruct (Rleb_spec p l), (Rleb_spec u p); repeat split; intros; lra.
Qed.

Lemma clamp_monotone (l u p1 p2 : R) :
  l < u -> p1 <= p2 -> conditional_price l u p1 <= conditional_price l u p2.
Proof.
  intros Hlu Hp. rewrite !(conditional_price_clamp l u) by exact Hlu.
  destruct (Rleb_spec p1 l), (Rleb_spec u p1), (Rleb_spec p2 l), (Rleb_spec u p2); lra.
Qed.

Lemma inv_sqrt_antitone (a b : R) : 0 < a -> a <= b -> 1 / sqrt b <= 1 / sqrt a.
Proof.
  intros Ha Hab.
  pose proof (sqrt_lt_R0 a Ha) as Hsa.
  assert (Hsab : sqrt a <= sqrt b) by (apply sqrt_le_1; lra).
  unfold Rdiv. rewrite !Rmult_1_l. apply Rinv_le_contravar; assumption.
Qed.

(** A position of nonnegative liquidity over a range [0 < lower < upper]
    holds nonnegative amounts of both tokens; at or below the range it is all
    token x, [liquidity * (1/sqrt lower - 1/sqrt upper)], and at or above it
    all token y, [liquidity * (sqrt upper - sqrt lower)]. *)
Theorem quantities_nonneg_and_edges (liquidity lower_price upper_price pool_price : R) :
  0 <= liquidity -> 0 < lower_price -> lower_price < upper_price -> 0 < pool_price ->
  exists x y : R,
    get_quantities (Fin liquidity) (Fin lower_price) (Fin upper_price) (Fin pool_price)
    = (Fin x, Fin y)
    /\ 0 <= x /\ 0 <= y
    /\ (pool_price <= lower_price ->
        x = liquidity * (1 / sqrt lower_price - 1 / sqrt upper_price) /\ y = 0)
    /\ (upper_price <= pool_price ->
        x = 0 /\ y = liquidity * (sqrt upper_price - sqrt lower_price)).
Proof.
  intros HL Hl Hlu Hp.
  rewrite get_quantities_Fin by lra.
  destruct (clamp_between lower_price upper_price pool_price Hlu)
    as ([Hc1 Hc2] & Hlow & Hup & _).
  set (c := conditional_price lower_price upper_price pool_price) in *.
  assert (Hc : 0 < c) by lra.
  pose proof (inv_sqrt_antitone c upper_price Hc Hc2) as Hinv.
  assert (Hsq : sqrt lower_price <= sqrt c) by (apply sqrt_le_1; lra).
  eexists _, _. split; [reflexivity|].
  split; [apply Rmult_le_pos; lra|]. split; [apply Rmult_le_pos; lra|].
  split; intros H.
  - rewrite (Hlow H). split; [reflexivity | ring].
  - rewrite (Hup H). split; [ring | reflexivity].
Qed.

Lemma quantities_nonneg_and_edges_witness :
  exists x y : R,
    get_quantities (Fin 3) (Fin 1) (Fin 4) (Fin 5) = (Fin x, Fin y)
    /\ x = 0 /\ y = 3 * (sqrt 4 - sqrt 1).
Proof.
  destruct (quantities_nonneg_and_edges 3 1 4 5) as (x & y & Hq & _ & _ & _ & Hup);
    try lra.
  exists x, y. split; [exact Hq | apply Hup; lra].
Defined.

(** As the pool price rises, a position of nonnegative liquidity holds less
    token x and more token y. *)
Theorem quantities_monotone (liquidity lower_price upper_price p1 p2 : R) :
  0 <= liquidity -> 0 < lower_price -> lower_price < upper_price ->
  0 < p1 -> p1 <= p2 ->
  exists x1 y1 x2 y2 : R,
    get_quantities (Fin liquidity) (Fin lower_price) (Fin upper_price) (Fin p1)
    = (Fin x1, Fin y1)
    /\ get_quantities (Fin liquidity) (Fin lower_price) (Fin upper_price) (Fin p2)
       = (Fin x2, Fin y2)
    /\ x2 <= x1 /\ y1 <= y2.
Proof.
  intros HL Hl Hlu Hp1 Hp12.
  rewrite !get_quantities_Fin by lra.
  pose proof (clamp_monotone lower_price upper_price p1 p2 Hlu Hp12) as Hmono.
  destruct (clamp_between lower_price upper_price p1 Hlu) as ([Ha _] & _).
  set (c1 := conditional_price lower_price upper_price p1) in *.
  set (c2 := conditional_price lower_price upper_price p2) in *.
  assert (Hc1 : 0 < c1) by lra.
  pose proof (inv_sqrt_antitone c1 c2 Hc1 Hmono) as Hinv.
  assert (Hsq : sqrt c1 <= sqrt c2) by (apply sqrt_le_1; lra).
  eexists _, _, _, _. split; [reflexivity|]. split; [reflexivity|].
  split; apply Rmult_le_compat_l; lra.
Qed.

Lemma quantities_monotone_witness :
  exists x1 y1 x2 y2 : R,
    get_quantities (Fin 3) (Fin 1) (Fin 4) (Fin 2) = (Fin x1, Fin y1)
    /\ get_quantities (Fin 3) (Fin 1) (Fin 4) (Fin 3) = (Fin x2, Fin y2)
    /\ x2 <= x1 /\ y1 <= y2.
Proof. apply (quantities_monotone 3 1 4 2 3); lra. Defined.

(** ** The four outcomes of a mint *)

Lemma mint_below (x y l u p : R) :
  0 < l -> l < u -> 0 < p -> p <= l ->
  mint_position (Fin x) (Fin y) (Fin l) (Fin u) (Fin p)
  = (Fin (x / (1 / sqrt l - 1 / sqrt u)), Fin x, Fin 0).
Proof.
  intros Hl Hlu Hp Hpl.
  destruct (sqrt_order l u Hl Hlu) as [Hsl Hslu].
  pose proof (inv_sqrt_gap l u Hl Hlu) as Hg.
  unfold mint_position. cbn [F.leb F.ltb].
  rewrite (Rltb_false l p), (Rleb_true p l) by lra. cbn [andb].
  rewrite !sqrt_Fin by lra. rewrite !(div_Fin 1) by lra.
  rewrite sub_Fin, div_Fin by lra. reflexivity.
Qed.

Lemma mint_above (x y l u p : R) :
  0 < l -> l < u -> u <= p ->
  mint_position (Fin x) (Fin y) (Fin l) (Fin u) (Fin p)
  = (Fin (y / (sqrt u - sqrt l)), Fin 0, Fin y).
Proof.
  intros Hl Hlu Hup.
  destruct (sqrt_order l u Hl Hlu) as [Hsl Hslu].
  unfold mint_position. cbn [F.leb F.ltb].
  rewrite (Rltb_false p u), (Rleb_false p l) by lra. rewrite andb_false_r.
  rewrite !sqrt_Fin by lra. rewrite sub_Fin, div_Fin by lra. reflexivity.
Qed.

Lemma mint_inside (x y l u p : R) :
  0 < l -> l < p -> p < u ->
  let need_x := y / (sqrt p - sqrt l) * (1 / sqrt p - 1 / sqrt u) in
  mint_position (Fin x) (Fin y) (Fin l) (Fin u) (Fin p)
  = if Rltb x need_x
    then (Fin (x / (1 / sqrt p - 1 / sqrt u)), Fin x,
          Fin (x / (1 / sqrt p - 1 / sqrt u) * (sqrt p - sqrt l)))
    else (Fin (y / (sqrt p - sqrt l)), Fin need_x, Fin y).
Proof.
  intros Hl Hlp Hpu. cbv zeta.
  assert (Hp : 0 < p) by lra.
  destruct (sqrt_order l p Hl Hlp) as [Hsl Hslp].
  destruct (sqrt_order p u Hp Hpu) as [Hsp Hspu].
  pose proof (inv_sqrt_gap p u Hp Hpu) as Hg.
  unfold mint_position. cbn [F.leb F.ltb].
  rewrite (Rltb_true l p), (Rltb_true p u) by lra. cbn [andb].
  rewrite !sqrt_Fin by lra. rewrite !sub_Fin. rewrite !(div_Fin 1) by lra.
  rewrite !sub_Fin. rewrite !div_Fin by lra. rewrite !mul_Fin. cbn [F.ltb].
  reflexivity.
Qed.

(** A mint from nonnegative balances over a range [0 < lower < upper] gives
    a nonnegative liquidity, takes nonnegative amounts, and takes the whole
    of at least one of the two balances. *)
Theorem mint_exhausts_one_balance (x y lower_price upper_price pool_price : R) :
  0 <= x -> 0 <= y ->
  0 < lower_price -> lower_price < upper_price -> 0 < pool_price ->
  exists liquidity used_x used_y : R,
    mint_position (Fin x) (Fin y) (Fin lower_price) (Fin upper_price) (Fin pool_price)
    = (Fin liquidity, Fin used_x, Fin used_y)
    /\ 0 <= liquidity /\ 0 <= used_x /\ 0 <= used_y
    /\ (used_x = x \/ used_y = y).
Proof.
  intros Hx Hy Hl Hlu Hp.
  destruct (Rle_or_lt pool_price lower_price) as [Hpl | Hlp].
  - rewrite mint_below by assumption.
    pose proof (inv_sqrt_gap _ _ Hl Hlu) as Hg.
    eexists _, _, _. split; [reflexivity|].
    split; [apply Rmult_le_pos; [lra | apply Rlt_le, Rinv_0_lt_compat, Hg]|].
    split; [lra|]. split; [lra|]. left. reflexivity.
  - destruct (Rle_or_lt upper_price pool_price) as [Hup | Hpu].
    + rewrite mint_above by assumption.
      destruct (sqrt_order _ _ Hl Hlu) as [Hsl Hslu].
      eexists _, _, _. split; [reflexivity|].
      split; [apply Rmult_le_pos; [lra | apply Rlt_le, Rinv_0_lt_compat; lra]|].
      split; [lra|]. split; [lra|]. right. reflexivity.
    + rewrite mint_inside by assumption.
      destruct (sqrt_order _ _ Hl Hlp) as [Hsl Hslp].
      destruct (sqrt_order _ _ Hp Hpu) as [Hsp Hspu].
      pose proof (inv_sqrt_gap _ _ Hp Hpu) as Hg.
      assert (Hi1 : 0 < / (sqrt pool_price - sqrt lower_price))
        by (apply Rinv_0_lt_compat; lra).
      assert (Hi2 : 0 < / (1 / sqrt pool_price - 1 / sqrt upper_price))
        by (apply Rinv_0_lt_compat; lra).
      destruct (Rltb _ _).
      * eexists _, _, _. split; [reflexivity|].
        split; [apply Rmult_le_pos; lra|]. split; [lra|].
        split; [apply Rmult_le_pos; [apply Rmult_le_pos|]; lra|].
        left. reflexivity.
      * eexists _, _, _. split; [reflexivity|].
        split; [apply Rmult_le_pos; lra|].
        split; [apply Rmult_le_pos; [apply Rmult_le_pos|]; lra|].
        split; [lra|]. right. reflexivity.
Qed.

Lemma mint_exhausts_one_balance_witness :
  exists liquidity used_x used_y : R,
    mint_position (Fin 1) (Fin 2) (Fin 1) (Fin 4) (Fin 2)
    = (Fin liquidity, Fin used_x, Fin used_y)
    /\ 0 <= liquidity /\ 0 <= used_x /\ 0 <= used_y
    /\ (used_x = 1 \/ used_y = 2).
Proof. apply (mint_exhausts_one_balance 1 2 1 4 2); lra. Defined.

(** ** Bounds written by a rebalance *)

Lemma floor_aligned (a s : Z) : (s | a / s * s)%Z.
Proof. apply Z.divide_factor_r. Qed.

Lemma floor_below (a s : Z) : (0 < s -> a / s * s <= a < a / s * s + s)%Z.
Proof. intros Hs. Z.div_mod_to_equations. nia. Qed.

Lemma min_aligned_divide (cfg : config) : (spacing cfg | min_aligned_tick cfg)%Z.
Proof.
  unfold min_aligned_tick. apply Z.divide_add_r; [apply floor_aligned | apply Z.divide_refl].
Qed.

Lemma max_aligned_divide (cfg : config) : (spacing cfg | max_aligned_tick cfg)%Z.
Proof. apply floor_aligned. Qed.

Lemma divide_b2z (s a : Z) (b : bool) : (s | a)%Z -> (s | a * Z.b2z b)%Z.
Proof. intros H. apply Z.divide_mul_l, H. Qed.

(** The limit range of a rebalance, for a positive spacing: both bounds are
    multiples of the spacing and at least one spacing apart, and the range
    lies on one side of the pool tick.  When no token y is left outside it
    starts at the first multiple of the spacing above the pool tick;
    otherwise it ends at the last multiple of the spacing at or below it. *)
Theorem limit_bounds_one_sided (cfg : config) (pool_tick target : Z) (y : float64) :
  (0 < spacing cfg)%Z ->
  let s := spacing cfg in
  let lower := fst (new_limit_bounds cfg pool_tick target y) in
  let upper := snd (new_limit_bounds cfg pool_tick target y) in
  (lower + s <= upper)%Z
  /\ (s | lower)%Z /\ (s | upper)%Z
  /\ ((y =? Fin 0)%fl = true ->
      (pool_tick < lower)%Z /\ lower = (pool_tick / s * s + s)%Z)
  /\ ((y =? Fin 0)%fl = false ->
      (upper <= pool_tick < upper + s)%Z /\ upper = (pool_tick / s * s)%Z).
Proof.
  intros Hs. cbv zeta.
  pose proof (floor_below pool_tick (spacing cfg) Hs) as Hfloor.
  pose proof (floor_aligned pool_tick (spacing cfg)) as Hal.
  pose proof (Z.divide_refl (spacing cfg)) as Hss.
  unfold new_limit_bounds.
  destruct (F.eqb y (Fin 0)); cbn [fst snd].
  - split; [lia|]. split; [apply Z.divide_add_r; assumption|].
    split.
    + apply Z.max_case.
      * apply Z.divide_add_r; apply divide_b2z;
          [apply floor_aligned | apply max_aligned_divide].
      * apply Z.divide_add_r; [assumption | apply Z.divide_mul_r, Hss].
    + split; [intros _; split; [lia | reflexivity] | discriminate].
  - split; [lia|]. split.
    + apply Z.min_case.
      * apply Z.divide_add_r; apply divide_b2z;
          [apply min_aligned_divide | apply floor_aligned].
      * apply Z.divide_sub_r; assumption.
    + split; [assumption|].
      split; [discriminate | intros _; split; [lia | reflexivity]].
Qed.

Lemma limit_bounds_one_sided_witness :
  new_limit_bounds default_config 130 0 (Fin 0) = (180, 480)%Z
  /\ (130 < fst (new_limit_bounds default_config 130 0 (Fin 0)))%Z.
Proof.
  destruct (limit_bounds_one_sided default_config 130 0 (Fin 0))
    as (_ & _ & _ & Hx & _); [reflexivity|].
  assert (Hz : (Fin 0 =? Fin 0)%fl = true) by (apply Reqb_true; reflexivity).
  destruct (Hx Hz) as [Habove Hlower].
  split; [|exact Habove].
  unfold new_limit_bounds. rewrite Hz. reflexivity.
Defined.

(** The base range of a reset, for a positive spacing, a lower offset of at
    least one spacing, an upper offset of at least two and a pool tick within
    the protocol's limits: both bounds are multiples of the spacing and the
    lower one is below the upper one, whatever the target position. *)
Theorem base_bounds_proper_aligned (cfg : config) (pool_tick target : Z) :
  (0 < spacing cfg)%Z ->
  (spacing cfg <= base_lower_bound_ticks cfg)%Z ->
  (2 * spacing cfg <= base_upper_bound_ticks cfg)%Z ->
  (-887272 <= pool_tick <= 887272)%Z ->
  (target = -1 \/ target = 0 \/ target = 1)%Z ->
  (fst (new_base_bounds cfg pool_tick target)
   < snd (new_base_bounds cfg pool_tick target))%Z
  /\ (spacing cfg | fst (new_base_bounds cfg pool_tick target))%Z
  /\ (spacing cfg | snd (new_base_bounds cfg pool_tick target))%Z.
Proof.
  intros Hs Hlo Hup Hp Ht.
  split.
  - destruct (new_base_bounds_cases cfg pool_tick target) as (H1 & Hm & H0).
    unfold min_aligned_tick, max_aligned_tick in *.
    destruct Ht as [Ht | [Ht | Ht]];
      [rewrite (Hm Ht) | rewrite (H0 Ht) | rewrite (H1 Ht)]; cbn [fst snd];
      Z.div_mod_to_equations; nia.
  - unfold new_base_bounds. cbn [fst snd].
    split; apply Z.divide_add_r; apply divide_b2z;
      first [apply min_aligned_divide | apply max_aligned_divide | apply floor_aligned].
Qed.

Lemma base_bounds_proper_aligned_witness :
  (fst (new_base_bounds default_config 887272 1)
   < snd (new_base_bounds default_config 887272 1))%Z.
Proof.
  apply (base_bounds_proper_aligned default_config 887272 1);
    cbn [default_config spacing base_lower_bound_ticks base_upper_bound_ticks]; lia.
Defined.

(** ** Position after a reset *)

Lemma step_base_reset (cfg : config) (i : nat) (t_i t_next pool_tick : Z) (st : state)
    (swaps : list swap) (log : row_log) (st' : state) :
  step cfg i t_i t_next pool_tick st swaps = Returned (log, st') ->
  rebalance log = true -> resets_base (reason log) = true ->
  (base_lower_bound_tick st', base_upper_bound_tick st')
  = new_base_bounds cfg pool_tick (step_target cfg pool_tick st (fees_x log)).
Proof.
  intros Hstep Hreb Hresets.
  apply step_unfold in Hstep as (_ & _ & Hst). rewrite Hreb in Hst.
  destruct (rebalance_positions_frame cfg pool_tick
              (step_target cfg pool_tick st (fees_x log)) (reason log) st
              (fund cfg i pool_tick st (fees_x log, fees_y log)))
    as (Hbase & _).
  rewrite Hresets in Hbase. subst st'. exact Hbase.
Qed.

Lemma step_rebalanced (cfg : config) (i : nat) (t_i t_next pool_tick : Z) (st : state)
    (swaps : list swap) (log : row_log) (st' : state) (tag : reason_tag) :
  step cfg i t_i t_next pool_tick st swaps = Returned (log, st') ->
  reason log = Some tag -> rebalance log = true.
Proof.
  intros Hstep Hreason.
  apply step_unfold in Hstep as (_ & Hdec & _).
  pose proof (step_flag _ _ _ _ _ _ _ Hdec) as Hnone.
  destruct (rebalance log); [reflexivity|].
  destruct Hnone as [Hn _]. rewrite Hn in Hreason by reflexivity. discriminate.
Qed.

(** After a rebalance that resets the base range, the position read off the
    new row is the target position of the iteration, so the same target does
    not count as a mismatch at the next iteration.  This holds when the two
    bounds centred on the pool tick stay strictly inside the extreme aligned
    ticks. *)
Theorem reset_reaches_target (cfg : config) (i : nat)
    (t_i t_next pool_tick : Z) (st : state) (swaps : list swap)
    (log : row_log) (st' : state) :
  step cfg i t_i t_next pool_tick st swaps = Returned (log, st') ->
  resets_base (reason log) = true ->
  (min_aligned_tick cfg
   < (pool_tick - base_lower_bound_ticks cfg) / spacing cfg * spacing cfg)%Z ->
  ((pool_tick + base_upper_bound_ticks cfg) / spacing cfg * spacing cfg
   < max_aligned_tick cfg)%Z ->
  current_position cfg st' = step_target cfg pool_tick st (fees_x log).
Proof.
  intros Hstep Hresets Hlo Hhi.
  assert (Hreb : rebalance log = true).
  { destruct (reason log) as [tag|] eqn:Hr; [|discriminate].
    exact (step_rebalanced _ _ _ _ _ _ _ _ _ _ Hstep Hr). }
  pose proof (step_base_reset _ _ _ _ _ _ _ _ _ Hstep Hreb Hresets) as Hb.
  destruct (new_base_bounds_cases cfg pool_tick
              (step_target cfg pool_tick st (fees_x log))) as (H1 & Hm & H0).
  unfold current_position.
  destruct (target_position_range cfg
              (hedge_delta cfg st pool_tick (fees_x log)) (borrowed st))
    as [Ht | [Ht | Ht]]; fold (step_target cfg pool_tick st (fees_x log)) in Ht;
    [rewrite (Hm Ht) in Hb | rewrite (H0 Ht) in Hb | rewrite (H1 Ht) in Hb];
    injection Hb as -> ->; rewrite Ht.
  - rewrite Z.eqb_refl. rewrite (proj2 (Z.eqb_neq _ _)) by lia. reflexivity.
  - rewrite !(proj2 (Z.eqb_neq _ _)) by lia. reflexivity.
  - rewrite Z.eqb_refl. rewrite (proj2 (Z.eqb_neq _ _)) by lia. reflexivity.
Qed.

Lemma reset_reaches_target_witness :
  current_position default_config (snd (sample_step 1 row_short)) = 1%Z.
Proof.
  rewrite <- (sample_target_short (-60) 0).
  apply (reset_reaches_target default_config 1 0 300 0 row_short []
           (fst (sample_step 1 row_short))).
  - apply sample_step_returned.
  - rewrite short_reason. reflexivity.
  - reflexivity.
  - reflexivity.
Defined.

(** ** Target position *)

(** With a nonzero finite debt and a threshold that is not negative, the
    target position is +1 exactly when the ratio [delta/borrowed] is below
    minus the threshold, -1 exactly when it is above the threshold, and 0
    exactly when it is within the threshold, both ends included. *)
Theorem target_position_bands (cfg : config) (d b : R) :
  b <> 0 -> 0 <= delta_threshold cfg ->
  let target := target_position cfg (Fin d) (Fin b) in
  (target = 1%Z <-> d / b < - delta_threshold cfg)
  /\ (target = (-1)%Z <-> delta_threshold cfg < d / b)
  /\ (target = 0%Z <-> - delta_threshold cfg <= d / b <= delta_threshold cfg).
Proof.
  intros Hb Hth. cbv zeta. rewrite target_position_Fin by exact Hb.
  destruct (Rltb_spec (d / b) (- delta_threshold cfg)),
           (Rltb_spec (delta_threshold cfg) (d / b));
    cbn [Z.b2z]; repeat split; intros; try lra; try lia; try reflexivity.
Qed.

Lemma target_position_bands_witness :
  target_position default_config (Fin (-1)) (Fin 4) = 1%Z.
Proof.
  destruct (target_position_bands default_config (-1) 4) as ([_ Hlong] & _).
  - lra.
  - cbn [default_config delta_threshold]. lra.
  - apply Hlong. cbn [default_config delta_threshold]. lra.
Defined.

(** ** Attributed fees *)

Lemma sum_from (l : list float64) (a : R) :
  (forall v, In v l -> v = Fin 0 \/ v = NaN) ->
  fold_left F.add (filter (fun v => negb (F.is_nan v)) l) (Fin a) = Fin a.
Proof.
  induction l as [|v l IH]; intros Hl; [reflexivity|].
  destruct (Hl v (or_introl eq_refl)) as [-> | ->]; cbn [filter F.is_nan negb fold_left].
  - rewrite add_Fin. replace (a + 0) with a by ring.
    apply IH. intros w Hw. apply Hl. right. exact Hw.
  - apply IH. intros w Hw. apply Hl. right. exact Hw.
Qed.

Lemma mul_zero_fee (a : float64) : (a * Fin 0)%fl = Fin 0 \/ (a * Fin 0)%fl = NaN.
Proof.
  destruct a as [r | | |]; cbn [F.mul].
  - left. f_equal. ring.
  - right. unfold F.scale_inf. rewrite Reqb_true; reflexivity.
  - right. unfold F.scale_inf. rewrite Reqb_true; reflexivity.
  - right. reflexivity.
Qed.

(** When every swap of the period reports zero fees, the fees attributed to
    the strategy are exactly zero, whatever the rows hold: a share that is
    not a number (a pool without liquidity) gives a [nan] product, which the
    sum skips. *)
Theorem zero_swap_fees_attribute_nothing (st : state) (t_i t_next : Z)
    (swaps : list swap) :
  (forall s, In s swaps -> sw_fees_x s = Fin 0 /\ sw_fees_y s = Fin 0) ->
  period_fees st t_i t_next swaps = (Fin 0, Fin 0).
Proof.
  intros Hzero. unfold period_fees, F.sum.
  assert (Hin : forall s, In s (swaps_period t_i t_next swaps) -> In s swaps).
  { intros s Hs. unfold swaps_period in Hs. apply filter_In in Hs. tauto. }
  f_equal; apply sum_from; intros v Hv; apply in_map_iff in Hv as (s & <- & Hs);
    destruct (Hzero s (Hin s Hs)) as [Hx Hy]; [rewrite Hx | rewrite Hy];
    apply mul_zero_fee.
Qed.

Lemma zero_swap_fees_attribute_nothing_witness :
  period_fees row_quiet 0 300
    [ {| sw_timestamp := 10; sw_tick := -30; sw_liquidity := Fin 0;
         sw_fees_x := Fin 0; sw_fees_y := Fin 0 |} ]
  = (Fin 0, Fin 0).
Proof.
  apply zero_swap_fees_attribute_nothing.
  intros s [<- | []]. split; reflexivity.
Defined.

Lemma sum_of_finite (l : list float64) (rs : list R) (a : R) :
  l = map Fin rs ->
  fold_left F.add (filter (fun v => negb (F.is_nan v)) l) (Fin a)
  = Fin (a + fold_right Rplus 0 rs).
Proof.
  intros ->. revert a. induction rs as [|r rs IH]; intros a; cbn.
  - f_equal. ring.
  - rewrite IH. f_equal. ring.
Qed.

Lemma gamma_liquidity_nonneg (st : state) (s : swap) (bL lL : R) :
  base_liquidity st = Fin bL -> 0 <= bL ->
  limit_liquidity st = Fin lL -> 0 <= lL ->
  exists g : R, gamma_liquidity st s = Fin g /\ 0 <= g <= bL + lL.
Proof.
  intros Hb HbL Hl HlL. unfold gamma_liquidity.
  rewrite Hb, Hl, !mul_of_bool, add_Fin.
  eexists. split; [reflexivity|].
  destruct (in_range _ _ _), (in_range _ _ _); lra.
Qed.

(** The fee of one swap that goes to the strategy: a share between 0 and 1
    of what the pool collected. *)
Lemma attributed_fee (st : state) (s : swap) (bL lL : R) (fee : float64) :
  base_liquidity st = Fin bL -> 0 <= bL ->
  limit_liquidity st = Fin lL -> 0 <= lL ->
  (exists q : R, sw_liquidity s = Fin q /\ 0 < q) ->
  nonneg fee ->
  exists r : R, (gamma_share st s * fee)%fl = Fin r /\ 0 <= r <= real_of fee.
Proof.
  intros Hb HbL Hl HlL (q & Hq & Hqpos) (f & -> & Hf).
  destruct (gamma_liquidity_nonneg st s bL lL Hb HbL Hl HlL) as (g & Hg & Hg0 & _).
  unfold gamma_share. rewrite Hg, Hq, add_Fin, div_Fin by lra. rewrite mul_Fin.
  eexists. split; [reflexivity|]. cbn [real_of].
  assert (Hshare : 0 <= g / (g + q) <= 1).
  { split.
    - apply Rmult_le_pos; [lra | apply Rlt_le, Rinv_0_lt_compat; lra].
    - apply Rmult_le_reg_r with (r := g + q); [lra|].
      unfold Rdiv. rewrite Rmult_assoc, Rinv_l by lra. lra. }
  split; [apply Rmult_le_pos; lra | nra].
Qed.

Lemma attributed_total (st : state) (bL lL : R) (fee : swap -> float64)
    (period : list swap) :
  base_liquidity st = Fin bL -> 0 <= bL ->
  limit_liquidity st = Fin lL -> 0 <= lL ->
  (forall s, In s period ->
     (exists q : R, sw_liquidity s = Fin q /\ 0 < q) /\ nonneg (fee s)) ->
  exists total : R,
    F.sum (map (fun s => (gamma_share st s * fee s)%fl) period) = Fin total
    /\ 0 <= total <= fold_right (fun s acc => real_of (fee s) + acc) 0 period.
Proof.
  intros Hb HbL Hl HlL Hgood.
  assert (Hrs : exists rs : list R,
            map (fun s => (gamma_share st s * fee s)%fl) period = map Fin rs
            /\ 0 <= fold_right Rplus 0 rs
               <= fold_right (fun s acc => real_of (fee s) + acc) 0 period).
  { induction period as [|s period IH].
    - exists []. cbn. split; [reflexivity | lra].
    - destruct IH as (rs & Hmap & Hbound).
      { intros s' Hs'. apply Hgood. right. exact Hs'. }
      destruct (Hgood s (or_introl eq_refl)) as [Hq Hfee].
      destruct (attributed_fee st s bL lL (fee s) Hb HbL Hl HlL Hq Hfee)
        as (r & Hr & Hrb).
      exists (r :: rs). cbn [map fold_right]. rewrite Hr, Hmap.
      split; [reflexivity | lra]. }
  destruct Hrs as (rs & Hmap & Hbound).
  exists (fold_right Rplus 0 rs). split; [|exact Hbound].
  unfold F.sum. rewrite (sum_of_finite _ rs 0 Hmap). f_equal. ring.
Qed.

(** With nonnegative liquidity in both positions and swaps of a pool that
    has liquidity and collects nonnegative fees, the fees attributed to the
    strategy over a period are finite, not negative, and at most what the
    pool collected over the period. *)
Theorem fees_within_pool_fees (st : state) (t_i t_next : Z) (swaps : list swap)
    (bL lL : R) :
  base_liquidity st = Fin bL -> 0 <= bL ->
  limit_liquidity st = Fin lL -> 0 <= lL ->
  Forall good_swap swaps ->
  exists fx fy : R,
    period_fees st t_i t_next swaps = (Fin fx, Fin fy)
    /\ 0 <= fx <= pool_fees_x t_i t_next swaps
    /\ 0 <= fy <= pool_fees_y t_i t_next swaps.
Proof.
  intros Hb HbL Hl HlL Hgood.
  assert (Hperiod : forall s, In s (swaps_period t_i t_next swaps) -> good_swap s).
  { intros s Hs. unfold swaps_period in Hs. apply filter_In in Hs as [Hs _].
    rewrite Forall_forall in Hgood. apply Hgood, Hs. }
  destruct (attributed_total st bL lL sw_fees_x (swaps_period t_i t_next swaps)
              Hb HbL Hl HlL) as (fx & Hfx & Hbx).
  { intros s Hs. destruct (Hperiod s Hs) as (Hq & Hx & _). split; assumption. }
  destruct (attributed_total st bL lL sw_fees_y (swaps_period t_i t_next swaps)
              Hb HbL Hl HlL) as (fy & Hfy & Hby).
  { intros s Hs. destruct (Hperiod s Hs) as (Hq & _ & Hy). split; assumption. }
  exists fx, fy. unfold period_fees. cbv zeta. rewrite Hfx, Hfy.
  split; [reflexivity|]. split; assumption.
Qed.

Lemma sample_swap_good : Forall good_swap [sample_swap].
Proof.
  constructor; [|constructor].
  split; [exists 3; split; [reflexivity | lra]|].
  split; [exists 1 | exists 2]; split; try reflexivity; lra.
Qed.

Lemma fees_within_pool_fees_witness :
  exists fx fy : R,
    period_fees row_active 0 300 [sample_swap] = (Fin fx, Fin fy)
    /\ 0 <= fx <= pool_fees_x 0 300 [sample_swap]
    /\ 0 <= fy <= pool_fees_y 0 300 [sample_swap].
Proof.
  apply (fees_within_pool_fees row_active 0 300 [sample_swap] 1 2);
    try reflexivity; try lra.
  exact sample_swap_good.
Defined.

(** ** The loop *)

Lemma loop_unfold (cfg : config) (i : nat) (b b' : bar) (rest : list bar) (st : state)
    (swaps : list swap) :
  backtest_loop cfg i (b :: b' :: rest) st swaps
  = match step cfg i (timestamp b) (timestamp b') (tick b) st swaps with
    | Raised e => Raised e
    | Returned (log, st') =>
        match backtest_loop cfg (S i) (b' :: rest) st' swaps with
        | Raised e => Raised e
        | Returned rows => Returned ((log, st') :: rows)
        end
    end.
Proof. reflexivity. Qed.

Lemma loop_step (cfg : config) (i : nat) (b b' : bar) (rest : list bar) (st : state)
    (swaps : list swap) :
  spacing cfg <> 0%Z ->
  backtest_loop cfg i (b :: b' :: rest) st swaps
  = match backtest_loop cfg (S i) (b' :: rest)
            (snd (step_body cfg i (timestamp b) (timestamp b') (tick b) st swaps)) swaps
    with
    | Raised e => Raised e
    | Returned rows =>
        Returned (step_body cfg i (timestamp b) (timestamp b') (tick b) st swaps :: rows)
    end.
Proof.
  intros Hs. cbn [backtest_loop]. rewrite step_returns by exact Hs.
  destruct (step_body cfg i (timestamp b) (timestamp b') (tick b) st swaps) as [log st'].
  reflexivity.
Qed.

(** The reason of an iteration is [initialization] at iteration 0 and at no
    other. *)
Lemma step_initialization (cfg : config) (i : nat) (t_i t_next pool_tick : Z)
    (st : state) (swaps : list swap) :
  reason (fst (step_body cfg i t_i t_next pool_tick st swaps)) = Some initialization
  <-> i = 0%nat.
Proof.
  unfold step_body. cbn [fst reason]. unfold step_decision.
  rewrite check_rebalance_priority. cbn [snd].
  destruct i as [|k]; cbn [Nat.eqb].
  - split; reflexivity.
  - split; [|discriminate].
    repeat match goal with
           | |- context [if ?c then _ else _] => destruct c
           end; discriminate.
Qed.

Lemma loop_initialization (cfg : config) (bars : list bar) (swaps : list swap) :
  forall (i : nat) (st : state) (rows : list (row_log * state)) (k : nat)
         (log : row_log) (st' : state),
    backtest_loop cfg i bars st swaps = Returned rows ->
    nth_error rows k = Some (log, st') ->
    reason log = Some initialization <-> (i + k = 0)%nat.
Proof.
  induction bars as [|b bars IH]; intros i st rows k log st' Hrun Hk.
  - injection Hrun as <-. destruct k; discriminate.
  - destruct bars as [|b' rest].
    + injection Hrun as <-. destruct k; discriminate.
    + destruct (Z.eq_dec (spacing cfg) 0) as [Hs | Hs].
      { cbn [backtest_loop] in Hrun. rewrite step_raises in Hrun by exact Hs.
        discriminate. }
      rewrite loop_step in Hrun by exact Hs.
      destruct (backtest_loop cfg (S i) (b' :: rest) _ swaps) as [rows' | e] eqn:Hrest;
        [|discriminate].
      injection Hrun as <-.
      destruct k as [|k]; cbn [nth_error] in Hk.
      * assert (Hsb : step_body cfg i (timestamp b) (timestamp b') (tick b) st swaps
                      = (log, st')) by congruence.
        pose proof (step_initialization cfg i (timestamp b) (timestamp b') (tick b)
                      st swaps) as Hinit.
        rewrite Hsb in Hinit. cbn [fst] in Hinit. rewrite Hinit. lia.
      * rewrite (IH (S i) _ rows' k log st' Hrest Hk). lia.
Qed.

(** In a run that returns, the first row records [initialization] and
    rebalances, and no later row records [initialization]. *)
Theorem initialization_only_first (cfg : config) (bars : list bar) (swaps : list swap)
    (rows : list (row_log * state)) (k : nat) (log : row_log) (st' : state) :
  backtest cfg bars swaps = Returned rows ->
  nth_error rows k = Some (log, st') ->
  (reason log = Some initialization <-> k = 0%nat)
  /\ (k = 0%nat -> rebalance log = true).
Proof.
  intros Hrun Hk. unfold backtest in Hrun.
  pose proof (loop_initialization cfg bars swaps 0 initial_state rows k log st' Hrun Hk)
    as Hinit.
  split; [rewrite Hinit; lia|].
  intros ->. assert (Hreason : reason log = Some initialization) by (apply Hinit; lia).
  destruct bars as [|b [|b' rest]];
    [injection Hrun as <-; discriminate | injection Hrun as <-; discriminate |].
  rewrite loop_unfold in Hrun.
  destruct (step cfg 0 (timestamp b) (timestamp b') (tick b) initial_state swaps)
    as [[log0 st0] | e] eqn:Hstep; [|discriminate].
  destruct (backtest_loop cfg 1 (b' :: rest) st0 swaps) as [rows' | e]; [|discriminate].
  injection Hrun as <-. cbn [nth_error] in Hk. injection Hk as -> ->.
  exact (step_rebalanced _ _ _ _ _ _ _ _ _ _ Hstep Hreason).
Qed.

Lemma sample_run : backtest default_config sample_bars [] = Returned sample_rows.
Proof. reflexivity. Qed.

Lemma initialization_only_first_witness :
  exists (log : row_log) (st' : state),
    nth_error sample_rows 1 = Some (log, st')
    /\ reason log <> Some initialization.
Proof.
  eexists _, _. split; [reflexivity|].
  intros H.
  apply (initialization_only_first default_config sample_bars [] sample_rows 1
           _ _ sample_run eq_refl) in H.
  discriminate.
Defined.

(** ** Hedge balances along a run *)

Lemma step_hedge (cfg : config) (i : nat) (t_i t_next pool_tick : Z) (st : state)
    (swaps : list swap) :
  let st' := snd (step_body cfg i t_i t_next pool_tick st swaps) in
  let f := fund cfg i pool_tick st (period_fees st t_i t_next swaps) in
  lent st' = (f_lent f * compound (lending_apy cfg))%fl
  /\ borrowed st' = (f_borrowed f * compound (borrowing_apy cfg))%fl.
Proof.
  cbv zeta. unfold step_body. cbn [snd accrue lent borrowed].
  rewrite settle_eq. cbv zeta.
  destruct (fst (step_decision cfg i pool_tick st _)).
  - destruct (rebalance_positions_frame cfg pool_tick
                (step_target cfg pool_tick st (fst (period_fees st t_i t_next swaps)))
                (snd (step_decision cfg i pool_tick st
                        (fst (period_fees st t_i t_next swaps))))
                st (fund cfg i pool_tick st (period_fees st t_i t_next swaps)))
      as (_ & _ & Hl & Hb).
    rewrite Hl, Hb. split; reflexivity.
  - split; reflexivity.
Qed.

Lemma loop_hedge (cfg : config) (bars : list bar) (swaps : list swap) :
  let lending := Rpower (1 + lending_apy cfg) (1 / (365 * 24 * 12)) in
  let borrowing := Rpower (1 + borrowing_apy cfg) (1 / (365 * 24 * 12)) in
  forall (i : nat) (st : state) (a b : R) (rows : list (row_log * state)) (k : nat)
         (log : row_log) (st' : state),
    (1 <= i)%nat -> lent st = Fin a -> borrowed st = Fin b ->
    backtest_loop cfg i bars st swaps = Returned rows ->
    nth_error rows k = Some (log, st') ->
    lent st' = Fin (a * lending ^ S k) /\ borrowed st' = Fin (b * borrowing ^ S k).
Proof.
  cbv zeta.
  induction bars as [|b0 bars IH]; intros i st a b rows k log st' Hi Ha Hb Hrun Hk.
  - injection Hrun as <-. destruct k; discriminate.
  - destruct bars as [|b1 rest].
    + injection Hrun as <-. destruct k; discriminate.
    + destruct (Z.eq_dec (spacing cfg) 0) as [Hs | Hs].
      { cbn [backtest_loop] in Hrun. rewrite step_raises in Hrun by exact Hs.
        discriminate. }
      rewrite loop_step in Hrun by exact Hs.
      destruct (backtest_loop cfg (S i) (b1 :: rest) _ swaps) as [rows' | e] eqn:Hrest;
        [|discriminate].
      injection Hrun as <-.
      destruct (step_hedge cfg i (timestamp b0) (timestamp b1) (tick b0) st swaps)
        as [Hl Hbw].
      unfold fund, compound in Hl, Hbw.
      destruct i as [|j]; [lia|]. cbn [Nat.eqb f_lent f_borrowed] in Hl, Hbw.
      rewrite Ha, mul_Fin in Hl. rewrite Hb, mul_Fin in Hbw.
      destruct k as [|k]; cbn [nth_error] in Hk.
      * assert (Hsb : step_body cfg (S j) (timestamp b0) (timestamp b1) (tick b0) st swaps
                      = (log, st')) by congruence.
        rewrite Hsb in Hl, Hbw. cbn [snd] in Hl, Hbw.
        rewrite Hl, Hbw. split; f_equal; simpl; ring.
      * destruct (IH (S (S j)) _ _ _ rows' k log st' (le_n_S _ _ (Nat.le_0_l _))
                    Hl Hbw Hrest Hk) as [Hl' Hb'].
        rewrite Hl', Hb'. split; f_equal; simpl; ring.
Qed.

(** Along a run the hedge follows a closed form: with [p0] the price of the
    first bar and rates above -100%, row [k+1] holds
    [lent = start_value*2/3 * (1+lending_apy)**(1/(365*24*12)) ^ (k+1)] and
    [borrowed = start_value*2/3/(2*p0) * (1+borrowing_apy)**(1/(365*24*12)) ^ (k+1)],
    whatever the ticks, the swaps and the rebalances in between. *)
Theorem hedge_closed_form (cfg : config) (b0 : bar) (bars : list bar)
    (swaps : list swap) (rows : list (row_log * state)) (k : nat)
    (log : row_log) (st' : state) :
  -1 < lending_apy cfg -> -1 < borrowing_apy cfg ->
  backtest cfg (b0 :: bars) swaps = Returned rows ->
  nth_error rows k = Some (log, st') ->
  let lending := Rpower (1 + lending_apy cfg) (1 / (365 * 24 * 12)) in
  let borrowing := Rpower (1 + borrowing_apy cfg) (1 / (365 * 24 * 12)) in
  lent st' = Fin (start_value cfg * 2 / 3 * lending ^ S k)
  /\ borrowed st'
     = Fin (start_value cfg * 2 / 3 / (2 * tick_price cfg (tick b0)) * borrowing ^ S k).
Proof.
  intros _ _ Hrun Hk. cbv zeta. unfold backtest in Hrun.
  destruct bars as [|b1 rest].
  { injection Hrun as <-. destruct k; discriminate. }
  destruct (Z.eq_dec (spacing cfg) 0) as [Hs | Hs].
  { cbn [backtest_loop] in Hrun. rewrite step_raises in Hrun by exact Hs. discriminate. }
  rewrite loop_step in Hrun by exact Hs.
  destruct (backtest_loop cfg 1 (b1 :: rest) _ swaps) as [rows' | e] eqn:Hrest;
    [|discriminate].
  injection Hrun as <-.
  destruct (step_hedge cfg 0 (timestamp b0) (timestamp b1) (tick b0) initial_state swaps)
    as [Hl Hb].
  unfold fund, compound in Hl, Hb. cbn [Nat.eqb f_lent f_borrowed] in Hl, Hb.
  rewrite price_of_tick_Fin in Hb.
  pose proof (tick_price_pos cfg (tick b0)) as Hp.
  rewrite div_Fin in Hb by lra. rewrite mul_Fin in Hl, Hb.
  destruct k as [|k]; cbn [nth_error] in Hk.
  - assert (Hsb : step_body cfg 0 (timestamp b0) (timestamp b1) (tick b0)
                    initial_state swaps = (log, st')) by congruence.
    rewrite Hsb in Hl, Hb. cbn [snd] in Hl, Hb.
    rewrite Hl, Hb. split; f_equal; simpl; [ring | field; lra].
  - destruct (loop_hedge cfg (b1 :: rest) swaps 1 _ _ _ rows' k log st' (le_n 1)
                Hl Hb Hrest Hk) as [Hl' Hb'].
    rewrite Hl', Hb'. split; f_equal; simpl; [ring | field; lra].
Qed.

Lemma hedge_closed_form_witness :
  exists (log : row_log) (st' : state),
    nth_error sample_rows 1 = Some (log, st')
    /\ lent st' = Fin (1 * 2 / 3 * Rpower (1 + 5 / 100) (1 / (365 * 24 * 12)) ^ 2).
Proof.
  eexists _, _. split; [reflexivity|].
  refine (proj1 (hedge_closed_form default_config {| timestamp := 0; tick := 0 |}
                   _ [] sample_rows 1 _ _ _ _ sample_run eq_refl));
    cbn [default_config lending_apy borrowing_apy]; lra.
Defined.

(** ** The outcome of a rebalance on finite balances *)

Lemma new_limit_bounds_side (cfg : config) (pool_tick target : Z) (y : float64) :
  (0 < spacing cfg)%Z ->
  (fst (new_limit_bounds cfg pool_tick target y)
   < snd (new_limit_bounds cfg pool_tick target y))%Z
  /\ (if (y =? Fin 0)%fl
      then (pool_tick < fst (new_limit_bounds cfg pool_tick target y))%Z
      else (snd (new_limit_bounds cfg pool_tick target y) <= pool_tick)%Z).
Proof.
  intros Hs. pose proof (floor_below pool_tick (spacing cfg) Hs) as Hfloor.
  unfold new_limit_bounds. destruct (F.eqb y (Fin 0)); cbn [fst snd]; lia.
Qed.

Lemma new_limit_bounds_aligned (cfg : config) (pool_tick target : Z) (y : float64) :
  (spacing cfg | fst (new_limit_bounds cfg pool_tick target y))%Z
  /\ (spacing cfg | snd (new_limit_bounds cfg pool_tick target y))%Z.
Proof.
  pose proof (floor_aligned pool_tick (spacing cfg)) as Hal.
  pose proof (Z.divide_refl (spacing cfg)) as Hss.
  unfold new_limit_bounds. destruct (F.eqb y (Fin 0)); cbn [fst snd]; split;
    try assumption.
  - apply Z.divide_add_r; assumption.
  - apply Z.max_case.
    + apply Z.divide_add_r; apply divide_b2z;
        [apply floor_aligned | apply max_aligned_divide].
    + apply Z.divide_add_r; [assumption | apply Z.divide_mul_r, Hss].
  - apply Z.min_case.
    + apply Z.divide_add_r; apply divide_b2z;
        [apply min_aligned_divide | apply floor_aligned].
    + apply Z.divide_sub_r; assumption.
Qed.

(** What [rebalance_positions] computes when the tokens of the row and the
    balances before the burn are real numbers and the base range is proper:
    the two mints, on real balances, and the row they leave. *)
Lemma rebalance_positions_outcome (cfg : config) (pool_tick target : Z)
    (r : option reason_tag) (st : state) (f : funding) (bx by_ lx ly fx fy : R) :
  (0 < spacing cfg)%Z ->
  base_tokens cfg st pool_tick = (Fin bx, Fin by_) ->
  limit_tokens cfg st pool_tick = (Fin lx, Fin ly) ->
  f_outside_x f = Fin fx -> f_outside_y f = Fin fy ->
  let bounds := if resets_base r then new_base_bounds cfg pool_tick target
                else (base_lower_bound_tick st, base_upper_bound_tick st) in
  (fst bounds < snd bounds)%Z ->
  let X := fx + (bx + lx) in
  let Y := fy + (by_ + ly) in
  exists (L1 ux1 uy1 L2 ux2 uy2 : R) (ll lu : Z),
    mint_position (Fin X) (Fin Y) (price_of_tick cfg (fst bounds))
      (price_of_tick cfg (snd bounds)) (price_of_tick cfg pool_tick)
    = (Fin L1, Fin ux1, Fin uy1)
    /\ new_limit_bounds cfg pool_tick target (Fin (Y - uy1)) = (ll, lu)
    /\ mint_position (Fin (X - ux1)) (Fin (Y - uy1)) (price_of_tick cfg ll)
         (price_of_tick cfg lu) (price_of_tick cfg pool_tick)
       = (Fin L2, Fin ux2, Fin uy2)
    /\ rebalance_positions cfg pool_tick target r st f
       = {| outside_x := Fin (X - ux1 - ux2);
            outside_y := Fin (Y - uy1 - uy2);
            base_lower_bound_tick := fst bounds;
            base_upper_bound_tick := snd bounds;
            base_liquidity := Fin L1;
            limit_lower_bound_tick := ll;
            limit_upper_bound_tick := lu;
            limit_liquidity := Fin L2;
            lent := f_lent f;
            borrowed := f_borrowed f |}.
Proof.
  intros Hs Hbt Hlt Hfx Hfy bounds Hbase X Y.
  unfold rebalance_positions. rewrite Hbt, Hlt, Hfx, Hfy, !add_Fin.
  fold X Y. fold bounds. destruct bounds as [bl bu]. cbn [fst snd] in *.
  destruct (mint_over_ticks cfg X Y bl bu pool_tick Hbase)
    as (L1 & ux1 & uy1 & Hm1 & _).
  rewrite Hm1, !sub_Fin.
  destruct (new_limit_bounds cfg pool_tick target (Fin (Y - uy1))) as [ll lu] eqn:Hlb.
  pose proof (new_limit_bounds_side cfg pool_tick target (Fin (Y - uy1)) Hs) as [Hlim _].
  rewrite Hlb in Hlim. cbn [fst snd] in Hlim.
  destruct (mint_over_ticks cfg (X - ux1) (Y - uy1) ll lu pool_tick Hlim)
    as (L2 & ux2 & uy2 & Hm2 & _).
  rewrite Hm2, !sub_Fin.
  exists L1, ux1, uy1, L2, ux2, uy2, ll, lu.
  repeat split; assumption.
Qed.

Lemma mint_limit_one_token (cfg : config) (pool_tick target : Z) (x y : R) :
  (0 < spacing cfg)%Z ->
  let bounds := new_limit_bounds cfg pool_tick target (Fin y) in
  exists L : R,
    (y = 0 /\ (pool_tick < fst bounds)%Z
     /\ mint_position (Fin x) (Fin y) (price_of_tick cfg (fst bounds))
          (price_of_tick cfg (snd bounds)) (price_of_tick cfg pool_tick)
        = (Fin L, Fin x, Fin 0))
    \/ (y <> 0 /\ (snd bounds <= pool_tick)%Z
        /\ mint_position (Fin x) (Fin y) (price_of_tick cfg (fst bounds))
             (price_of_tick cfg (snd bounds)) (price_of_tick cfg pool_tick)
           = (Fin L, Fin 0, Fin y)).
Proof.
  intros Hs bounds.
  destruct (new_limit_bounds_side cfg pool_tick target (Fin y) Hs) as [Hlt Hside].
  fold bounds in Hlt, Hside. cbn [F.eqb] in Hside.
  rewrite !price_of_tick_Fin.
  pose proof (tick_price_pos cfg (fst bounds)) as Hl.
  pose proof (tick_price_pos cfg pool_tick) as Hp.
  pose proof (tick_price_lt cfg _ _ Hlt) as Hlu.
  destruct (Reqb_spec y 0) as [Hy | Hy].
  - eexists. left. split; [exact Hy|]. split; [exact Hside|].
    rewrite mint_below; try assumption.
    + rewrite Hy. reflexivity.
    + apply Rlt_le, tick_price_lt, Hside.
  - eexists. right. split; [exact Hy|]. split; [exact Hside|].
    rewrite mint_above; try assumption.
    + reflexivity.
    + apply tick_price_le, Hside.
Qed.

Lemma mint_ticks_roundtrip (cfg : config) (x y L ux uy : R) (lower upper pool_tick : Z) :
  (lower < upper)%Z ->
  mint_position (Fin x) (Fin y) (price_of_tick cfg lower) (price_of_tick cfg upper)
    (price_of_tick cfg pool_tick)
  = (Fin L, Fin ux, Fin uy) ->
  get_quantities (Fin L) (price_of_tick cfg lower) (price_of_tick cfg upper)
    (price_of_tick cfg pool_tick)
  = (Fin ux, Fin uy).
Proof.
  intros Hlt Hm.
  destruct (mint_over_ticks cfg x y lower upper pool_tick Hlt)
    as (L' & ux' & uy' & Hm' & Hq).
  rewrite Hm in Hm'. injection Hm' as -> -> ->. exact Hq.
Qed.

Lemma step_tokens_Fin (cfg : config) (st : state) (pool_tick : Z) (bL lL : R) :
  base_liquidity st = Fin bL -> limit_liquidity st = Fin lL ->
  base_tokens cfg st pool_tick
  = (Fin (fst (tokens_of cfg bL (base_lower_bound_tick st) (base_upper_bound_tick st)
                 pool_tick)),
     Fin (snd (tokens_of cfg bL (base_lower_bound_tick st) (base_upper_bound_tick st)
                 pool_tick)))
  /\ limit_tokens cfg st pool_tick
     = (Fin (fst (tokens_of cfg lL (limit_lower_bound_tick st) (limit_upper_bound_tick st)
                    pool_tick)),
        Fin (snd (tokens_of cfg lL (limit_lower_bound_tick st) (limit_upper_bound_tick st)
                    pool_tick))).
Proof.
  intros Hb Hl. unfold base_tokens, limit_tokens. rewrite Hb, Hl.
  split; apply position_tokens_Fin.
Qed.

(** After a rebalance on real balances over a proper base range, no token y
    is left outside, and the limit position holds a single token: either the
    limit range lies above the pool tick, holds only token x and no token x
    is left outside either, or it lies at or below the pool tick and holds
    only token y. *)
Theorem rebalance_deploys_all_token_y (cfg : config) (i : nat)
    (t_i t_next pool_tick : Z) (st : state) (swaps : list swap)
    (log : row_log) (st' : state) (bL lL ox oy fx fy : R) :
  step cfg i t_i t_next pool_tick st swaps = Returned (log, st') ->
  rebalance log = true ->
  (0 < spacing cfg)%Z ->
  base_liquidity st = Fin bL -> limit_liquidity st = Fin lL ->
  outside_x st = Fin ox -> outside_y st = Fin oy ->
  fees_x log = Fin fx -> fees_y log = Fin fy ->
  (base_lower_bound_tick st' < base_upper_bound_tick st')%Z ->
  outside_y st' = Fin 0
  /\ (((pool_tick < limit_lower_bound_tick st')%Z
       /\ outside_x st' = Fin 0
       /\ snd (limit_tokens cfg st' pool_tick) = Fin 0)
      \/ ((limit_upper_bound_tick st' <= pool_tick)%Z
          /\ fst (limit_tokens cfg st' pool_tick) = Fin 0)).
Proof.
  intros Hstep Hreb Hs HbL HlL Hox Hoy Hfx Hfy Hbase.
  apply step_unfold in Hstep as (_ & _ & Hst). rewrite Hreb in Hst.
  set (target := step_target cfg pool_tick st (fees_x log)) in *.
  set (f := fund cfg i pool_tick st (fees_x log, fees_y log)) in *.
  destruct (fund_outside_Fin cfg i pool_tick st ox oy fx fy Hox Hoy)
    as (a & b & Ha & Hb).
  rewrite <- Hfx, <- Hfy in Ha, Hb. fold f in Ha, Hb.
  destruct (step_tokens_Fin cfg st pool_tick bL lL HbL HlL) as [Hbt Hlt].
  destruct (rebalance_positions_frame cfg pool_tick target (reason log) st f)
    as (Hframe & _).
  assert (Hproper :
    (fst (if resets_base (reason log) then new_base_bounds cfg pool_tick target
          else (base_lower_bound_tick st, base_upper_bound_tick st))
     < snd (if resets_base (reason log) then new_base_bounds cfg pool_tick target
            else (base_lower_bound_tick st, base_upper_bound_tick st)))%Z).
  { rewrite <- Hframe. cbn [fst snd]. subst st'. exact Hbase. }
  destruct (rebalance_positions_outcome cfg pool_tick target (reason log) st f
              _ _ _ _ a b Hs Hbt Hlt Ha Hb Hproper)
    as (L1 & ux1 & uy1 & L2 & ux2 & uy2 & ll & lu & _ & Hlb & Hm2 & Hout).
  set (X := a + _) in *. set (Y := b + _) in *.
  destruct (mint_limit_one_token cfg pool_tick target (X - ux1) (Y - uy1) Hs)
    as (L & [(Hy0 & Hside & Hm) | (Hy0 & Hside & Hm)]);
    rewrite Hlb in Hside, Hm; cbn [fst snd] in Hside, Hm;
    rewrite Hm2 in Hm; injection Hm as _ Hux Huy.
  - pose proof (new_limit_bounds_side cfg pool_tick target (Fin (Y - uy1)) Hs) as [Hlim _].
    rewrite Hlb in Hlim. cbn [fst snd] in Hlim.
    pose proof (mint_ticks_roundtrip cfg _ _ _ _ _ ll lu pool_tick Hlim Hm2) as Hq.
    subst st'. rewrite Hout. unfold limit_tokens.
    cbn [accrue outside_x outside_y limit_liquidity limit_lower_bound_tick
         limit_upper_bound_tick].
    rewrite Hq. cbn [fst snd].
    split; [f_equal; lra|]. left.
    split; [exact Hside|]. split; f_equal; lra.
  - pose proof (new_limit_bounds_side cfg pool_tick target (Fin (Y - uy1)) Hs) as [Hlim _].
    rewrite Hlb in Hlim. cbn [fst snd] in Hlim.
    pose proof (mint_ticks_roundtrip cfg _ _ _ _ _ ll lu pool_tick Hlim Hm2) as Hq.
    subst st'. rewrite Hout. unfold limit_tokens.
    cbn [accrue outside_x outside_y limit_liquidity limit_lower_bound_tick
         limit_upper_bound_tick].
    rewrite Hq. cbn [fst snd].
    split; [f_equal; lra|]. right.
    split; [exact Hside|]. f_equal; lra.
Qed.

Lemma rebalance_deploys_all_token_y_witness :
  outside_y (snd (sample_step 0 initial_state)) = Fin 0.
Proof.
  pose proof (sample_step_returned 0 initial_state) as Hstep.
  pose proof (proj1 (sample_flags 0 initial_state _ _ (first_decision _))) as Hreb.
  pose proof (sample_resets_base 0 initial_state _ (first_decision _) eq_refl) as Hbounds.
  rewrite initial_target in Hbounds.
  change (new_base_bounds default_config 0 0) with ((-300)%Z, 300%Z) in Hbounds.
  pose proof (f_equal fst Hbounds) as Hlo. pose proof (f_equal snd Hbounds) as Hhi.
  cbn [fst snd] in Hlo, Hhi.
  refine (proj1 (rebalance_deploys_all_token_y default_config 0 0 300 0 initial_state []
                   _ _ 0 0 0 0 0 0 Hstep Hreb _ _ _ _ _ _ _ _)); try reflexivity.
  rewrite Hlo, Hhi. reflexivity.
Defined.

(** ** Ranges stay proper *)

Lemma new_base_bounds_good (cfg : config) (pool_tick target : Z) :
  (0 < spacing cfg)%Z ->
  (spacing cfg <= base_lower_bound_ticks cfg)%Z ->
  (2 * spacing cfg <= base_upper_bound_ticks cfg)%Z ->
  tick_in_limits pool_tick ->
  (target = -1 \/ target = 0 \/ target = 1)%Z ->
  (fst (new_base_bounds cfg pool_tick target)
   < snd (new_base_bounds cfg pool_tick target))%Z
  /\ (spacing cfg | fst (new_base_bounds cfg pool_tick target))%Z
  /\ (spacing cfg | snd (new_base_bounds cfg pool_tick target))%Z.
Proof.
  intros Hs Hlo Hup Hp Ht. unfold tick_in_limits in Hp.
  split.
  - destruct (new_base_bounds_cases cfg pool_tick target) as (H1 & Hm & H0).
    unfold min_aligned_tick, max_aligned_tick in *.
    destruct Ht as [Ht | [Ht | Ht]];
      [rewrite (Hm Ht) | rewrite (H0 Ht) | rewrite (H1 Ht)]; cbn [fst snd];
      Z.div_mod_to_equations; nia.
  - unfold new_base_bounds. cbn [fst snd].
    split; apply Z.divide_add_r; apply divide_b2z;
      first [apply min_aligned_divide | apply max_aligned_divide | apply floor_aligned].
Qed.

Lemma first_iteration_decision (cfg : config) (pool_tick : Z) (st : state) (fx : float64) :
  step_decision cfg 0 pool_tick st fx = (true, Some initialization).
Proof.
  unfold step_decision. rewrite check_rebalance_priority.
  cbn [Nat.eqb]. rewrite orb_true_r. reflexivity.
Qed.

Lemma sample_bars_in_limits : Forall (fun b => tick_in_limits (tick b)) sample_bars.
Proof. repeat constructor; cbn; lia. Qed.

Lemma step_body_ranges_proper (cfg : config) (i : nat) (t_i t_next pool_tick : Z)
    (st : state) (swaps : list swap) :
  (0 < spacing cfg)%Z ->
  (spacing cfg <= base_lower_bound_ticks cfg)%Z ->
  (2 * spacing cfg <= base_upper_bound_ticks cfg)%Z ->
  tick_in_limits pool_tick ->
  i = 0%nat \/ ranges_proper cfg st ->
  ranges_proper cfg (snd (step_body cfg i t_i t_next pool_tick st swaps)).
Proof.
  intros Hs Hlo Hup Hpt Hpre.
  unfold step_body. cbn [snd]. rewrite settle_eq. cbv zeta.
  set (fees := period_fees st t_i t_next swaps).
  set (target := step_target cfg pool_tick st (fst fees)).
  destruct (step_decision cfg i pool_tick st (fst fees)) as [flag tag] eqn:Hdec.
  cbn [fst snd]. destruct flag.
  - rewrite rebalance_positions_eq. cbv zeta.
    match goal with
    | |- context [new_limit_bounds cfg pool_tick target ?y] =>
        destruct (new_limit_bounds_side cfg pool_tick target y Hs) as [Hlim _];
        destruct (new_limit_bounds_aligned cfg pool_tick target y) as [Hl1 Hl2]
    end.
    unfold ranges_proper, accrue.
    cbn [base_lower_bound_tick base_upper_bound_tick
         limit_lower_bound_tick limit_upper_bound_tick].
    destruct (resets_base tag) eqn:Hresets.
    + destruct (new_base_bounds_good cfg pool_tick target Hs Hlo Hup Hpt
                  (target_position_range _ _ _)) as (Hb & Hb1 & Hb2).
      repeat split; assumption.
    + destruct Hpre as [-> | (Hb & _ & Hb1 & Hb2 & _)].
      * rewrite first_iteration_decision in Hdec. injection Hdec as <-. discriminate.
      * cbn [fst snd]. repeat split; assumption.
  - destruct Hpre as [-> | Hranges].
    + rewrite first_iteration_decision in Hdec. discriminate.
    + exact Hranges.
Qed.

(** One iteration keeps both ranges proper.  With a positive spacing, a
    lower base offset of at least one spacing, an upper one of at least two
    and a pool tick within the protocol's limits, the row that an iteration
    writes has base and limit bounds that are multiples of the spacing with
    the lower tick below the upper tick, provided the row it reads has (any
    row will do at iteration 0).  Balances play no part: this holds whatever
    the amounts, the fees and the swaps are. *)
Theorem step_keeps_ranges_proper (cfg : config) (i : nat) (t_i t_next pool_tick : Z)
    (st : state) (swaps : list swap) (log : row_log) (st' : state) :
  (0 < spacing cfg)%Z ->
  (spacing cfg <= base_lower_bound_ticks cfg)%Z ->
  (2 * spacing cfg <= base_upper_bound_ticks cfg)%Z ->
  tick_in_limits pool_tick ->
  i = 0%nat \/ ranges_proper cfg st ->
  step cfg i t_i t_next pool_tick st swaps = Returned (log, st') ->
  ranges_proper cfg st'.
Proof.
  intros Hs Hlo Hup Hpt Hpre Hstep.
  apply step_inv in Hstep as [_ Hbody].
  pose proof (step_body_ranges_proper cfg i t_i t_next pool_tick st swaps
                Hs Hlo Hup Hpt Hpre) as Hranges.
  rewrite Hbody in Hranges. exact Hranges.
Qed.

Lemma step_keeps_ranges_proper_witness :
  ranges_proper default_config (snd (sample_step 1 row_limit_out)).
Proof.
  apply (step_keeps_ranges_proper default_config 1 0 300 0 row_limit_out []
           (fst (sample_step 1 row_limit_out))).
  - reflexivity.
  - cbn [default_config spacing base_lower_bound_ticks]. lia.
  - cbn [default_config spacing base_upper_bound_ticks]. lia.
  - unfold tick_in_limits. lia.
  - right. unfold ranges_proper, row_limit_out, sample_row.
    cbn [base_lower_bound_tick base_upper_bound_tick limit_lower_bound_tick
         limit_upper_bound_tick default_config spacing].
    repeat split; try lia.
    + exists (-5)%Z. reflexivity.
    + exists 5%Z. reflexivity.
    + exists 10%Z. reflexivity.
    + exists 20%Z. reflexivity.
  - apply sample_step_returned.
Defined.

Lemma loop_ranges_proper (cfg : config) (swaps : list swap) :
  (0 < spacing cfg)%Z ->
  (spacing cfg <= base_lower_bound_ticks cfg)%Z ->
  (2 * spacing cfg <= base_upper_bound_ticks cfg)%Z ->
  forall (bars : list bar) (i : nat) (st : state) (rows : list (row_log * state)),
    Forall (fun b => tick_in_limits (tick b)) bars ->
    i = 0%nat \/ ranges_proper cfg st ->
    backtest_loop cfg i bars st swaps = Returned rows ->
    Forall (fun r => ranges_proper cfg (snd r)) rows.
Proof.
  intros Hpos Hlo Hup.
  assert (Hs : spacing cfg <> 0%Z) by lia.
  induction bars as [|b bars IH]; intros i st rows Hticks Hpre Hrun.
  - injection Hrun as <-. constructor.
  - destruct bars as [|b' rest].
    + injection Hrun as <-. constructor.
    + rewrite loop_step in Hrun by exact Hs.
      destruct (backtest_loop cfg (S i) (b' :: rest) _ swaps) as [rows' | e] eqn:Hrest;
        [|discriminate].
      injection Hrun as <-.
      inversion Hticks as [|? ? Hb Hticks']; subst.
      pose proof (step_body_ranges_proper cfg i (timestamp b) (timestamp b') (tick b)
                    st swaps Hpos Hlo Hup Hb Hpre) as Hranges.
      constructor; [exact Hranges|].
      refine (IH (S i) _ rows' Hticks' _ Hrest).
      right. exact Hranges.
Qed.

(** Along a whole run both ranges stay proper: with a positive spacing, a
    lower base offset of at least one spacing, an upper one of at least two
    and bars within the protocol's tick limits, every row that a returning
    run writes has base and limit bounds that are multiples of the spacing
    with the lower tick below the upper tick, whatever the swaps. *)
Theorem backtest_ranges_proper (cfg : config) (bars : list bar) (swaps : list swap)
    (rows : list (row_log * state)) :
  (0 < spacing cfg)%Z ->
  (spacing cfg <= base_lower_bound_ticks cfg)%Z ->
  (2 * spacing cfg <= base_upper_bound_ticks cfg)%Z ->
  Forall (fun b => tick_in_limits (tick b)) bars ->
  backtest cfg bars swaps = Returned rows ->
  Forall (fun r => ranges_proper cfg (snd r)) rows.
Proof.
  intros Hs Hlo Hup Hticks Hrun.
  apply (loop_ranges_proper cfg swaps Hs Hlo Hup bars 0 initial_state rows Hticks);
    [left; reflexivity | exact Hrun].
Qed.

Lemma backtest_ranges_proper_witness :
  Forall (fun r => ranges_proper default_config (snd r)) sample_rows.
Proof.
  apply (backtest_ranges_proper default_config sample_bars [] sample_rows).
  - reflexivity.
  - cbn [default_config spacing base_lower_bound_ticks]. lia.
  - cbn [default_config spacing base_upper_bound_ticks]. lia.
  - exact sample_bars_in_limits.
  - exact sample_run.
Defined.

Lemma default_config_good : good_config default_config.
Proof.
  unfold good_config. cbn [default_config spacing base_lower_bound_ticks
    base_upper_bound_ticks start_value lending_apy borrowing_apy].
  repeat split; try lia; lra.
Qed.


(** ** Value of a row *)

Lemma Rpower_one_base (y : R) : Rpower 1 y = 1.
Proof. unfold Rpower. rewrite ln_1, Rmult_0_r. apply exp_0. Qed.

Lemma total_value_Fin (cfg : config) (pool_tick : Z) (st : state)
    (bx by_ lx ly ox oy gx gy le bo : R) :
  base_tokens cfg st pool_tick = (Fin bx, Fin by_) ->
  limit_tokens cfg st pool_tick = (Fin lx, Fin ly) ->
  outside_x st = Fin ox -> outside_y st = Fin oy ->
  lent st = Fin le -> borrowed st = Fin bo ->
  total_value cfg pool_tick st (Fin gx, Fin gy)
  = Fin ((bx + lx + ox + gx) * tick_price cfg pool_tick + (by_ + ly + oy + gy)
         + le - bo * tick_price cfg pool_tick).
Proof.
  intros Hbt Hlt Hox Hoy Hle Hbo.
  unfold total_value, liquidity_value.
  rewrite Hbt, Hlt, Hox, Hoy, Hle, Hbo, price_of_tick_Fin. cbn [fst snd].
  rewrite !mul_Fin, !add_Fin, sub_Fin. f_equal. ring.
Qed.

(** The total value of the row that an iteration writes, taken at the pool
    tick of the iteration with fees [(gx, gy)] recorded in it. *)
Lemma step_value (cfg : config) (i : nat) (t_i t_next pool_tick : Z) (st : state)
    (swaps : list swap) (bL lL a b le bo gx gy : R) :
  (0 < spacing cfg)%Z ->
  base_liquidity st = Fin bL -> limit_liquidity st = Fin lL ->
  let f := fund cfg i pool_tick st (period_fees st t_i t_next swaps) in
  f_outside_x f = Fin a -> f_outside_y f = Fin b ->
  f_lent f = Fin le -> f_borrowed f = Fin bo ->
  let log := fst (step_body cfg i t_i t_next pool_tick st swaps) in
  let st' := snd (step_body cfg i t_i t_next pool_tick st swaps) in
  (rebalance log = true ->
   (base_lower_bound_tick st' < base_upper_bound_tick st')%Z) ->
  let base := tokens_of cfg bL (base_lower_bound_tick st) (base_upper_bound_tick st)
                pool_tick in
  let limit := tokens_of cfg lL (limit_lower_bound_tick st) (limit_upper_bound_tick st)
                 pool_tick in
  let p := tick_price cfg pool_tick in
  total_value cfg pool_tick st' (Fin gx, Fin gy)
  = Fin ((fst base + fst limit + a + gx) * p + (snd base + snd limit + b + gy)
         + le * Rpower (1 + lending_apy cfg) (1 / (365 * 24 * 12))
         - bo * Rpower (1 + borrowing_apy cfg) (1 / (365 * 24 * 12)) * p).
Proof.
  intros Hs HbL HlL f Ha Hb Hle Hbo log st' Hproper base limit p.
  destruct (step_tokens_Fin cfg st pool_tick bL lL HbL HlL) as [Hbt Hlt].
  fold base in Hbt. fold limit in Hlt.
  subst log st'. unfold step_body in *. cbn [fst snd rebalance] in *.
  rewrite settle_eq in *. cbv zeta in *. fold f in Hproper |- *.
  set (fees := period_fees st t_i t_next swaps) in *.
  set (target := step_target cfg pool_tick st (fst fees)) in *.
  destruct (step_decision cfg i pool_tick st (fst fees)) as [flag tag].
  cbn [fst snd] in *. destruct flag.
  - specialize (Hproper eq_refl).
    destruct (rebalance_positions_frame cfg pool_tick target tag st f) as (Hframe & _).
    assert (Hbounds :
      (fst (if resets_base tag then new_base_bounds cfg pool_tick target
            else (base_lower_bound_tick st, base_upper_bound_tick st))
       < snd (if resets_base tag then new_base_bounds cfg pool_tick target
              else (base_lower_bound_tick st, base_upper_bound_tick st)))%Z).
    { rewrite <- Hframe. exact Hproper. }
    destruct (rebalance_positions_outcome cfg pool_tick target tag st f
                _ _ _ _ a b Hs Hbt Hlt Ha Hb Hbounds)
      as (L1 & ux1 & uy1 & L2 & ux2 & uy2 & ll & lu & Hm1 & Hlb & Hm2 & Hout).
    pose proof (mint_ticks_roundtrip cfg _ _ _ _ _ _ _ pool_tick Hbounds Hm1) as Hq1.
    destruct (new_limit_bounds_side cfg pool_tick target
                (Fin (b + (snd base + snd limit) - uy1)) Hs) as [Hlim _].
    rewrite Hlb in Hlim. cbn [fst snd] in Hlim.
    pose proof (mint_ticks_roundtrip cfg _ _ _ _ _ ll lu pool_tick Hlim Hm2) as Hq2.
    rewrite Hout. unfold accrue, compound.
    cbn [outside_x outside_y base_liquidity limit_liquidity lent borrowed
         base_lower_bound_tick base_upper_bound_tick
         limit_lower_bound_tick limit_upper_bound_tick].
    rewrite Hle, Hbo, !mul_Fin.
    erewrite total_value_Fin; [| exact Hq1 | exact Hq2 | reflexivity..].
    f_equal. fold p. ring.
  - unfold accrue, keep_positions, compound.
    cbn [outside_x outside_y base_liquidity limit_liquidity lent borrowed
         base_lower_bound_tick base_upper_bound_tick
         limit_lower_bound_tick limit_upper_bound_tick].
    rewrite Ha, Hb, Hle, Hbo, !mul_Fin.
    erewrite total_value_Fin; [| exact Hbt | exact Hlt | reflexivity..].
    reflexivity.
Qed.

(** Between two rows at the same pool price the total value moves only by
    the fees recorded in the new row and by the interest of the hedge.  For an
    iteration [i >= 1] on real balances (with a proper base range if it
    rebalances), the next row, valued at the pool tick of the iteration with
    fees [(gx, gy)], is worth the current row plus [gx*price + gy], plus
    [lent] times its rate factor minus one, minus [borrowed*price] times its
    rate factor minus one: a rebalance creates and destroys no value.  Both
    rates are above -100%. *)
Theorem value_moves_by_fees_and_interest (cfg : config) (i : nat)
    (t_i t_next pool_tick : Z) (st : state) (swaps : list swap)
    (log : row_log) (st' : state) (bL lL ox oy le bo fx fy gx gy : R) :
  step cfg i t_i t_next pool_tick st swaps = Returned (log, st') ->
  (1 <= i)%nat ->
  (0 < spacing cfg)%Z ->
  base_liquidity st = Fin bL -> limit_liquidity st = Fin lL ->
  outside_x st = Fin ox -> outside_y st = Fin oy ->
  lent st = Fin le -> borrowed st = Fin bo ->
  fees_x log = Fin fx -> fees_y log = Fin fy ->
  -1 < lending_apy cfg -> -1 < borrowing_apy cfg ->
  (rebalance log = true ->
   (base_lower_bound_tick st' < base_upper_bound_tick st')%Z) ->
  let p := tick_price cfg pool_tick in
  let lending := Rpower (1 + lending_apy cfg) (1 / (365 * 24 * 12)) in
  let borrowing := Rpower (1 + borrowing_apy cfg) (1 / (365 * 24 * 12)) in
  exists V : R,
    total_value cfg pool_tick st (fees_x log, fees_y log) = Fin V
    /\ total_value cfg pool_tick st' (Fin gx, Fin gy)
       = Fin (V + (gx * p + gy) + le * (lending - 1) - bo * p * (borrowing - 1)).
Proof.
  intros Hstep Hi Hs HbL HlL Hox Hoy Hle Hbo Hfx Hfy _ _ Hproper p lending borrowing.
  apply step_inv in Hstep as [_ Hbody].
  pose proof (step_body_log _ _ _ _ _ _ _ _ _ Hbody) as (Hfx' & Hfy' & _ & _).
  cbv zeta in Hfx', Hfy'.
  assert (Hfees : period_fees st t_i t_next swaps = (Fin fx, Fin fy)).
  { rewrite (surjective_pairing (period_fees st t_i t_next swaps)).
    rewrite <- Hfx', <- Hfy', Hfx, Hfy. reflexivity. }
  destruct (step_tokens_Fin cfg st pool_tick bL lL HbL HlL) as [Hbt Hlt].
  pose proof (step_value cfg i t_i t_next pool_tick st swaps bL lL
                (ox + fx) (oy + fy) le bo gx gy Hs HbL HlL) as Hval.
  cbv zeta in Hval. rewrite Hbody, Hfees in Hval. cbn [fst snd] in Hval.
  unfold fund in Hval. destruct i as [|j]; [lia|].
  cbn [Nat.eqb f_outside_x f_outside_y f_lent f_borrowed fst snd] in Hval.
  rewrite Hox, Hoy, !add_Fin in Hval.
  specialize (Hval eq_refl eq_refl Hle Hbo Hproper).
  rewrite Hfx, Hfy, Hval.
  rewrite (total_value_Fin cfg pool_tick st _ _ _ _ ox oy fx fy le bo Hbt Hlt Hox Hoy Hle Hbo).
  eexists. split; [reflexivity|]. f_equal. fold p. unfold lending, borrowing. ring.
Qed.

Lemma value_moves_by_fees_and_interest_witness :
  rebalance (fst (sample_step 1 row_short)) = true
  /\ exists V : R,
       total_value default_config 0 row_short (Fin 0, Fin 0) = Fin V
       /\ total_value default_config 0 (snd (sample_step 1 row_short)) (Fin 0, Fin 0)
          = Fin (V + (0 * tick_price default_config 0 + 0)
                 + 2 / 3 * (Rpower (1 + 5 / 100) (1 / (365 * 24 * 12)) - 1)
                 - 1 * tick_price default_config 0
                   * (Rpower (1 + 2 / 100) (1 / (365 * 24 * 12)) - 1)).
Proof.
  split; [exact (proj1 (sample_flags 1 row_short _ _ short_decision))|].
  pose proof (sample_resets_base 1 row_short _ short_decision eq_refl) as Hbounds.
  unfold row_short in Hbounds at 3. rewrite sample_target_short in Hbounds.
  change (new_base_bounds default_config 0 1) with ((-300)%Z, 887220%Z) in Hbounds.
  pose proof (f_equal fst Hbounds) as Hlo. pose proof (f_equal snd Hbounds) as Hhi.
  cbn [fst snd] in Hlo, Hhi.
  refine (value_moves_by_fees_and_interest default_config 1 0 300 0 row_short []
            (fst (sample_step 1 row_short)) _ 0 0 0 1 (2 / 3) 1 0 0 0 0
            (sample_step_returned 1 row_short) (le_n 1) _ _ _ _ _ _ _ _ _ _ _ _);
    try reflexivity.
  - cbn [default_config lending_apy]. lra.
  - cbn [default_config borrowing_apy]. lra.
  - intros _. rewrite Hlo, Hhi. reflexivity.
Defined.

Lemma first_row_base_bounds (cfg : config) (t_i t_next pool_tick : Z) (st : state)
    (swaps : list swap) :
  let st' := snd (step_body cfg 0 t_i t_next pool_tick st swaps) in
  (base_lower_bound_tick st', base_upper_bound_tick st')
  = new_base_bounds cfg pool_tick
      (step_target cfg pool_tick st (fst (period_fees st t_i t_next swaps))).
Proof.
  cbv zeta. unfold step_body. cbn [snd]. rewrite settle_eq. cbv zeta.
  rewrite first_iteration_decision. cbn [fst snd].
  destruct (rebalance_positions_frame cfg pool_tick
              (step_target cfg pool_tick st (fst (period_fees st t_i t_next swaps)))
              (Some initialization) st
              (fund cfg 0 pool_tick st (period_fees st t_i t_next swaps)))
    as (Hframe & _).
  exact Hframe.
Qed.

(** The first iteration turns [start_value] into a row of the same worth.
    With parameters that give proper base ranges and a pool tick within the
    protocol's limits, the row written by iteration 0, valued at the tick of
    the first bar before any fee, is worth
    [start_value * (2/3 + 2/3*lending - 1/3*borrowing)] with the two rate
    factors of one bar, whatever the swaps; with both rates zero this is
    exactly [start_value]. *)
Theorem first_row_value (cfg : config) (t_i t_next pool_tick : Z) (swaps : list swap)
    (log : row_log) (st' : state) :
  good_config cfg -> tick_in_limits pool_tick ->
  step cfg 0 t_i t_next pool_tick initial_state swaps = Returned (log, st') ->
  let lending := Rpower (1 + lending_apy cfg) (1 / (365 * 24 * 12)) in
  let borrowing := Rpower (1 + borrowing_apy cfg) (1 / (365 * 24 * 12)) in
  total_value cfg pool_tick st' (Fin 0, Fin 0)
  = Fin (start_value cfg * (2 / 3 + 2 / 3 * lending - 1 / 3 * borrowing))
  /\ (lending_apy cfg = 0 -> borrowing_apy cfg = 0 ->
      total_value cfg pool_tick st' (Fin 0, Fin 0) = Fin (start_value cfg)).
Proof.
  intros (Hs & Hlo & Hup & _) Hpt Hstep. cbv zeta.
  apply step_inv in Hstep as [_ Hbody].
  pose proof (tick_price_pos cfg pool_tick) as Hp.
  pose proof (step_value cfg 0 t_i t_next pool_tick initial_state swaps 0 0
                (start_value cfg * 2 / 3 / 2 / tick_price cfg pool_tick)
                (start_value cfg - start_value cfg * 2 / 3)
                (start_value cfg * 2 / 3)
                (start_value cfg * 2 / 3 / 2 / tick_price cfg pool_tick)
                0 0 Hs eq_refl eq_refl) as Hval.
  cbv zeta in Hval. unfold fund in Hval.
  cbn [Nat.eqb f_outside_x f_outside_y f_lent f_borrowed] in Hval.
  rewrite price_of_tick_Fin, div_Fin in Hval by lra.
  specialize (Hval eq_refl eq_refl eq_refl eq_refl).
  assert (Hproper :
    (base_lower_bound_tick (snd (step_body cfg 0 t_i t_next pool_tick initial_state swaps))
     < base_upper_bound_tick
         (snd (step_body cfg 0 t_i t_next pool_tick initial_state swaps)))%Z).
  { pose proof (first_row_base_bounds cfg t_i t_next pool_tick initial_state swaps) as Hb.
    cbv zeta in Hb.
    destruct (new_base_bounds_good cfg pool_tick
                (step_target cfg pool_tick initial_state
                   (fst (period_fees initial_state t_i t_next swaps)))
                Hs Hlo Hup Hpt (target_position_range _ _ _)) as (Hlt & _).
    rewrite <- Hb in Hlt. exact Hlt. }
  specialize (Hval (fun _ => Hproper)).
  rewrite Hbody in Hval. cbn [snd] in Hval.
  assert (Hmain :
    total_value cfg pool_tick st' (Fin 0, Fin 0)
    = Fin (start_value cfg
           * (2 / 3 + 2 / 3 * Rpower (1 + lending_apy cfg) (1 / (365 * 24 * 12))
              - 1 / 3 * Rpower (1 + borrowing_apy cfg) (1 / (365 * 24 * 12))))).
  { rewrite Hval. unfold tokens_of. cbn [fst snd initial_state base_lower_bound_tick
      base_upper_bound_tick limit_lower_bound_tick limit_upper_bound_tick].
    rewrite !Rmult_0_l. f_equal. field. lra. }
  split; [exact Hmain|].
  intros Hl0 Hb0. rewrite Hmain, Hl0, Hb0.
  replace (1 + 0) with 1 by ring. rewrite Rpower_one_base. f_equal. field.
Qed.

Lemma first_row_value_witness :
  total_value default_config 0 (snd (sample_step 0 initial_state)) (Fin 0, Fin 0)
  = Fin (1 * (2 / 3 + 2 / 3 * Rpower (1 + 5 / 100) (1 / (365 * 24 * 12))
              - 1 / 3 * Rpower (1 + 2 / 100) (1 / (365 * 24 * 12)))).
Proof.
  refine (proj1 (first_row_value default_config 0 300 0 []
                   (fst (sample_step 0 initial_state)) _
                   default_config_good _ (sample_step_returned 0 initial_state))).
  unfold tick_in_limits. lia.
Defined.

(** ** The rebalance count *)




(** ** Burning and minting over the same range *)

Ltac triple_of_reals :=
  repeat match goal with
         | |- (_, _) = (_, _) => apply f_equal2
         | |- Fin _ = Fin _ => apply f_equal
         end.

(** Minting from exactly the tokens that a position holds, over the same
    range and at the same pool price, gives the position back: the same
    liquidity, and both amounts used in full. *)
Theorem quantities_then_mint (liquidity lower_price upper_price pool_price : R) :
  0 < lower_price -> lower_price < upper_price -> 0 < pool_price ->
  exists x y : R,
    get_quantities (Fin liquidity) (Fin lower_price) (Fin upper_price) (Fin pool_price)
    = (Fin x, Fin y)
    /\ mint_position (Fin x) (Fin y) (Fin lower_price) (Fin upper_price) (Fin pool_price)
       = (Fin liquidity, Fin x, Fin y).
Proof.
  intros Hl Hlu Hp.
  rewrite get_quantities_Fin by lra.
  destruct (clamp_between lower_price upper_price pool_price Hlu)
    as (_ & Hlow & Hup & Hin).
  eexists _, _. split; [reflexivity|].
  destruct (sqrt_order _ _ Hl Hlu) as [Hsl Hslu].
  pose proof (inv_sqrt_gap _ _ Hl Hlu) as Hg.
  destruct (Rle_or_lt pool_price lower_price) as [Hpl | Hlp].
  - rewrite (Hlow Hpl), mint_below by assumption.
    triple_of_reals; try reflexivity; field; repeat split; lra.
  - destruct (Rle_or_lt upper_price pool_price) as [Hupp | Hpu].
    + rewrite (Hup Hupp), mint_above by assumption.
      triple_of_reals; try reflexivity; field; repeat split; lra.
    + rewrite Hin by lra. rewrite mint_inside by assumption.
      destruct (sqrt_order _ _ Hl Hlp) as [_ Hslp].
      destruct (sqrt_order _ _ Hp Hpu) as [Hsp Hspu].
      pose proof (inv_sqrt_gap _ _ Hp Hpu) as Hgp.
      assert (Heq : liquidity * (sqrt pool_price - sqrt lower_price)
                    / (sqrt pool_price - sqrt lower_price)
                    * (1 / sqrt pool_price - 1 / sqrt upper_price)
                    = liquidity * (1 / sqrt pool_price - 1 / sqrt upper_price)).
      { field. repeat split; lra. }
      rewrite Rltb_false by (rewrite Heq; lra).
      rewrite Heq. triple_of_reals; try reflexivity. field. lra.
Qed.

Lemma quantities_then_mint_witness :
  exists x y : R,
    get_quantities (Fin 3) (Fin 1) (Fin 4) (Fin 2) = (Fin x, Fin y)
    /\ mint_position (Fin x) (Fin y) (Fin 1) (Fin 4) (Fin 2) = (Fin 3, Fin x, Fin y).
Proof. apply (quantities_then_mint 3 1 4 2); lra. Defined.

(** ** The base position under a limit trigger *)


(** ** The mint in binary64 *)

Module Binary64Facts.
Import PrimFloat.
Local Open Scope float_scope.


End Binary64Facts.
